(** * beat/inputf.py: the loaders of the data normalisation pipeline

    A shallow embedding of [src/src/inputf.py] (Python 2).  The loaders read
    files through external readers (scipy, numpy, pyrocko); what a reader
    does on a path is a parameter of the model, the loaders' own control
    flow (loops, exception handlers, list mutation, logging) is embedded as
    written.  Floating point values are IEEE binary64 ([PrimFloat]). *)

From Stdlib Require Import ZArith PrimFloat.
From stdpp Require Import base option list strings gmap.

Open Scope string_scope.
Open Scope list_scope.

(** ** Python values, exceptions and effects *)

(** The exception classes the loaders raise, catch or let through. *)
Inductive pyexn :=
| IOError
| KeyError (key : string)
| IndexError
| AttributeError (attr : string)
| TypeError
| PyException (msg : string)          (* raise Exception(msg) *)
| OtherError (cls : string).          (* any other class, e.g. ValueError *)

Global Instance pyexn_eq_dec : EqDecision pyexn.
Proof. solve_decision. Defined.

Inductive res (A : Type) :=
| Ok (a : A)
| Raise (e : pyexn).
Arguments Ok {A} a.
Arguments Raise {A} e.

(** Records of the module's [logger]. *)
Inductive logrec :=
| LogWarn (msg : string)
| LogInfo (msg : string).

(** What a call leaves behind besides its result: the log and the paths
    handed to the file system, both in order of occurrence. *)
Record world := World { wlog : list logrec; wreads : list string }.

Definition w0 : world := World [] [].

Definition M (A : Type) : Type := world → res A * world.

Definition ret {A} (a : A) : M A := λ w, (Ok a, w).
Definition raise {A} (e : pyexn) : M A := λ w, (Raise e, w).
Definition bind {A B} (c : M A) (k : A → M B) : M B :=
  λ w, match c w with
       | (Ok a, w') => k a w'
       | (Raise e, w') => (Raise e, w')
       end.
Definition lift {A} (r : res A) : M A := λ w, (r, w).
Definition logger (r : logrec) : M unit :=
  λ w, (Ok tt, World (wlog w ++ [r]) (wreads w)).
Definition touch (path : string) : M unit :=
  λ w, (Ok tt, World (wlog w) (wreads w ++ [path])).

Notation "'do' x <- c ; k" := (bind c (λ x, k))
  (at level 10, x name, c at level 100, k at level 200).
Notation "'do_' c ; k" := (bind c (λ _, k))
  (at level 10, c at level 100, k at level 200).

(** [try: c  except IOError: h] *)
Definition try_IOError {A} (c : M A) (h : M A) : M A :=
  λ w, match c w with
       | (Raise IOError, w') => h w'
       | r => r
       end.

(** [l[i]] on a Python list: [IndexError] out of range. *)
Definition index {A} (l : list A) (i : nat) : res A :=
  match l !! i with
  | Some x => Ok x
  | None => Raise IndexError
  end.

(** [for x in l: s = body(x, s)] over a list the body does not change. *)
Fixpoint for_in {A S} (l : list A) (body : A → S → M S) (s : S) : M S :=
  match l with
  | [] => ret s
  | x :: l' => do s' <- body x s; for_in l' body s'
  end.

(** [enumerate(l)] *)
Definition enumerate {A} (l : list A) : list (nat * A) :=
  zip (seq 0 (length l)) l.

(** ** Module constants (lines 12-13) *)

Definition km : float := 1000%float.
Definition m : float := 0x1.12e0be826d695p-30%float.   (* 0.000000001 *)

(** ** Interferogram loader (lines 16-67) *)

(** What [scipy.io.loadmat(..., squeeze_me=True, struct_as_record=False)]
    hands back: a dict from variable names to arrays or [mat_struct]
    objects. *)
#[local] Unset Elimination Schemes.
Inductive matval :=
| MVec (xs : list float)                      (* 1-D array *)
| MMat (rows : list (list float))             (* 2-D array, by rows *)
| MStruct (fields : list (string * matval)).  (* mat_struct object *)
#[local] Set Elimination Schemes.

(** The reader itself is external: on a path it returns a dict or raises. *)
Definition matfs : Type := string → res (gmap string matval).

(** [d[key]] on a dict. *)
Definition getitem (d : gmap string matval) (key : string) : res matval :=
  match d !! key with
  | Some v => Ok v
  | None => Raise (KeyError key)
  end.

(** [a[:, c]]: column [c] of a 2-D array. *)
Definition column (a : matval) (c : nat) : res (list float) :=
  match a with
  | MMat rows =>
      match mapM (λ row : list float, row !! c) rows with
      | Some col => Ok col
      | None => Raise IndexError
      end
  | MVec _ => Raise IndexError
  | MStruct _ => Raise TypeError
  end.

Fixpoint assoc (fields : list (string * matval)) (a : string) : option matval :=
  match fields with
  | [] => None
  | (k, v) :: rest => if decide (k = a) then Some v else assoc rest a
  end.

(** [o.attr] on a loaded object. *)
Definition getattr (o : matval) (a : string) : res matval :=
  match o with
  | MStruct fields =>
      match assoc fields a with
      | Some v => Ok v
      | None => Raise (AttributeError a)
      end
  | _ => Raise (AttributeError a)
  end.

(** Modelled from the spec: [heart.Covariance], the covariance structure
    wrapping the matrix it is given. *)
Record Covariance := mkCovariance { cov_data : matval }.

(** Modelled from the spec: [heart.DiffIFG], the InterferogramObservation
    record; the constructor stores its keyword arguments. *)
Record DiffIFG := mkDiffIFG {
  ifg_name : string;
  displacement : matval;
  utme : list float;
  utmn : list float;
  lons : list float;
  lats : list float;
  covariance : Covariance;
  incidence : matval;
  heading : matval;
  odw : matval
}.

Definition quad_path (datadir k : string) : string :=
  datadir +:+ "quad_" +:+ k +:+ ".mat".
Definition cov_path (datadir k : string) : string :=
  datadir +:+ "CovMatrix_" +:+ k +:+ ".mat".

Section SAR.
(** [utility.utm_to_lonlat], the coordinate conversion the loader
    consumes: (easting, northing, zone) to (longitude, latitude). *)
Variable utm_to_lonlat : list float → list float → Z → list float * list float.
Variable fs : matfs.

(** lines 16-21 *)
Definition load_matfile (datapath : string) : M (option (gmap string matval)) :=
  try_IOError
    (do_ touch datapath;
     do d <- lift (fs datapath);
     ret (Some d))
    (do_ logger (LogWarn ("File " +:+ datapath +:+ " does not exist."));
     ret None).

(** lines 45-61: the record built from the two loaded dicts. *)
Definition make_diffg (k : string) (data covs : gmap string matval) : res DiffIFG :=
  match getitem data "cfoc" with Raise e => Raise e | Ok cfoc =>
  match column cfoc 0 with Raise e => Raise e | Ok utmx =>
  match column cfoc 1 with Raise e => Raise e | Ok utmy =>
  let '(lons, lats) := utm_to_lonlat utmx utmy 36 in
  match getitem data "lvQT" with Raise e => Raise e | Ok Lv =>
  match getitem covs "Cov" with Raise e => Raise e | Ok cov =>
  let covariance := mkCovariance cov in
  match getitem data "sqval" with Raise e => Raise e | Ok sqval =>
  match getattr Lv "inci" with Raise e => Raise e | Ok inci =>
  match getattr Lv "head" with Raise e => Raise e | Ok head =>
  match getitem data "ODW_sub" with Raise e => Raise e | Ok odw_sub =>
  Ok (mkDiffIFG k sqval utmx utmy lons lats covariance inci head odw_sub)
  end end end end end end end end end.

(** lines 34-65, one pass of the loop body up to the point where the
    record (if any) is known: [Some d] on the branch of line 44, [None]
    on the [else] branch. *)
Definition sar_body (datadir k : string) : M (option DiffIFG) :=
  do data <- load_matfile (quad_path datadir k);
  do covs <- load_matfile (cov_path datadir k);
  match data, covs with
  | Some data, Some covs =>
      do d <- lift (make_diffg k data covs);
      ret (Some d)
  | _, _ =>
      do_ logger (LogInfo ("File " +:+ datadir +:+ " was no SAR data?!"));
      ret None
  end.

(** lines 31-67.  [for k in names] walks the list object by position:
    pass number [i] reads [names[i]] of the list as it is then, and stops
    once [i] is past its end.  [names.pop(0)] (line 62) shortens that same
    list.  The result carries the records, the caller's list as the call
    leaves it, and the world.  Each pass uses one unit of [fuel]; the list
    never grows, so its length plus one is enough, and [None] (out of fuel)
    does not occur. *)
Fixpoint sar_loop (datadir : string) (fuel i : nat) (names : list string)
    (diffgs : list DiffIFG) (w : world)
    : option (res (list DiffIFG) * list string * world) :=
  match fuel with
  | 0 => None
  | S fuel =>
      match names !! i with
      | None => Some (Ok diffgs, names, w)
      | Some k =>
          match sar_body datadir k w with
          | (Raise e, w') => Some (Raise e, names, w')
          | (Ok None, w') => sar_loop datadir fuel (S i) names diffgs w'
          | (Ok (Some d), w') =>
              match names with
              | [] => Some (Raise IndexError, names, w')
              | _ :: names' =>
                  sar_loop datadir fuel (S i) names' (diffgs ++ [d]) w'
              end
          end
      end
  end.

Definition load_SAR_data (datadir : string) (names : list string) (w : world)
    : option (res (list DiffIFG) * list string * world) :=
  sar_loop datadir (S (length names)) 0 names [] w.

(** Every read of the call that ended in [IOError] has its warning in
    the log, followed by the "was no SAR data" record; [w] is the world
    before the call and [w'] the one after. *)
Definition diagnostics_cover (datadir : string) (w w' : world) : Prop :=
  ∃ rs ls, wreads w' = wreads w ++ rs ∧ wlog w' = wlog w ++ ls ∧
    ∀ path, path ∈ rs → fs path = Raise IOError →
      LogWarn ("File " +:+ path +:+ " does not exist.") ∈ ls ∧
      LogInfo ("File " +:+ datadir +:+ " was no SAR data?!") ∈ ls.

(** The record the spec describes for identifier [k] and the two loaded
    structures: which field of which file each attribute comes from. *)
Definition describes (k : string) (data covs : gmap string matval)
    (d : DiffIFG) : Prop :=
  ifg_name d = k ∧
  (∃ cfoc, data !! "cfoc" = Some cfoc ∧
           column cfoc 0 = Ok (utme d) ∧ column cfoc 1 = Ok (utmn d)) ∧
  utm_to_lonlat (utme d) (utmn d) 36 = (lons d, lats d) ∧
  data !! "sqval" = Some (displacement d) ∧
  (∃ Lv, data !! "lvQT" = Some Lv ∧
         getattr Lv "inci" = Ok (incidence d) ∧
         getattr Lv "head" = Ok (heading d)) ∧
  data !! "ODW_sub" = Some (odw d) ∧
  covs !! "Cov" = Some (cov_data (covariance d)).

(** Both companion files of [k] load. *)
Definition loads (datadir k : string) (data covs : gmap string matval) : Prop :=
  fs (quad_path datadir k) = Ok data ∧ fs (cov_path datadir k) = Ok covs.

(** The only way a read of [path] fails is the [IOError] that
    [load_matfile] catches. *)
Definition absent_or_loads (path : string) : Prop :=
  ∀ e, fs path = Raise e → e = IOError.

(** An identifier whose files, when they are there, expose the fields of
    the matrix-file contract. *)
Definition benign (datadir k : string) : Prop :=
  absent_or_loads (quad_path datadir k) ∧
  absent_or_loads (cov_path datadir k) ∧
  ∀ data covs, loads datadir k data covs → ∃ d, describes k data covs d.

(** The warning [load_matfile] logs for [path], if it logs one. *)
Definition missing_warning (path : string) : list logrec :=
  match fs path with
  | Raise IOError => [LogWarn ("File " +:+ path +:+ " does not exist.")]
  | _ => []
  end.

Definition read_both (datadir k : string) (w : world) : world :=
  World (wlog w) (wreads w ++ [quad_path datadir k; cov_path datadir k]).

Definition diagnosed (datadir k : string) (w : world) : world :=
  World (wlog w ++ missing_warning (quad_path datadir k)
                ++ missing_warning (cov_path datadir k)
                ++ [LogInfo ("File " +:+ datadir +:+ " was no SAR data?!")])
        (wreads w ++ [quad_path datadir k; cov_path datadir k]).
End SAR.

(** ** Station-velocity table loader (lines 70-116) *)

(** Modelled from the spec: [heart.GPSComponent], one velocity component of
    a station with its two-sigma uncertainty. *)
Record GPSComponent := mkGPSComponent {
  comp_name : string;
  v : float;
  twosigma : float
}.

(** Modelled from the spec: [heart.GPSStation]; it owns an
    ordered-by-insertion mapping of component name to component. *)
Record GPSStation := mkGPSStation {
  st_name : string;
  lon : float;
  lat : float;
  components : list (string * GPSComponent)
}.

(** Modelled from the spec: [GPSStation.add_component]; a new name goes to
    the end of the mapping, a name already there keeps its place and takes
    the new component. *)
Definition add_component (st : GPSStation) (c : GPSComponent) : GPSStation :=
  mkGPSStation (st_name st) (lon st) (lat st)
    (if decide (comp_name c ∈ (components st).*1)
     then (λ kc : string * GPSComponent,
             if decide (kc.1 = comp_name c) then (kc.1, c) else kc)
            <$> components st
     else components st ++ [(comp_name c, c)]).

(** Modelled from the spec: [GPSStation.get_component_names]. *)
Definition get_component_names (st : GPSStation) : list string :=
  (components st).*1.

(** Modelled from the spec: [heart.GPSDataset], a mapping of station name
    to station. *)
Record GPSDataset := mkGPSDataset { stations : gmap string GPSStation }.

(** Modelled from the spec: [GPSDataset.add_station]. *)
Definition add_station (ds : GPSDataset) (st : GPSStation) : GPSDataset :=
  mkGPSDataset (<[st_name st := st]> (stations ds)).

(** Modelled from the spec: [GPSDataset.remove_stations]; removing a name
    that is not present is a no-op. *)
Definition remove_stations (ds : GPSDataset) (blacklist : list string) : GPSDataset :=
  mkGPSDataset (foldl (λ sts n, delete n sts) (stations ds) blacklist).

(** [ds.stations.values()]: the stations in the dict's own order, which does
    not depend on the order of insertion. *)
Definition values (ds : GPSDataset) : list GPSStation :=
  (map_to_list (stations ds)).*2.

(** Modelled from the spec: the compound view, the cross-station collection
    of (station, component) pairs sharing a component name. *)
Record GPSCompound := mkGPSCompound {
  cmp_name : string;
  cmp_members : list (GPSStation * GPSComponent)
}.

Fixpoint find_component (cs : list (string * GPSComponent)) (c : string)
    : option GPSComponent :=
  match cs with
  | [] => None
  | (k, x) :: rest => if decide (k = c) then Some x else find_component rest c
  end.

(** Modelled from the spec: [GPSDataset.get_compound]. *)
Definition get_compound (ds : GPSDataset) (c : string) : GPSCompound :=
  mkGPSCompound c
    (omap (λ st, (λ x, (st, x)) <$> find_component (components st) c) (values ds)).

(** [os.path.join(a, p)] for two arguments (posixpath). *)
Definition path_join (a p : string) : string :=
  if String.prefix "/" p then p
  else if decide (a = "") then p
  else if String.eqb (String.substring (String.length a - 1) 1 a) "/" then a +:+ p
  else a +:+ "/" +:+ p.

(** What [numpy.loadtxt] returns for the two calls of lines 82-83: the
    column of names ([usecols=0, dtype='string']) and the block of the
    numeric columns ([usecols=range(1, 9), dtype='float']), by rows. *)
Record txtfs := mkTxtfs {
  loadtxt_str : string → res (list string);
  loadtxt_float : string → res (list (list float))
}.

(** [d[i, c]] on a 2-D array. *)
Definition index2 (d : list (list float)) (i c : nat) : res float :=
  match d !! i with
  | Some row => index row c
  | None => Raise IndexError
  end.

Section GPS.
Variable tfs : txtfs.

(** lines 93-99: the components of row [i]. *)
Definition gps_components (d : list (list float)) (i : nat)
    (gps_station : GPSStation) : M GPSStation :=
  for_in (enumerate ["E"; "N"; "U"])
    (λ '(j, comp) gps_station,
       do x <- lift (index2 d i (j + 2));
       do s <- lift (index2 d i (j + 5));
       ret (add_component gps_station
              (mkGPSComponent comp (x / km)%float (s / km)%float)))
    gps_station.

(** lines 91-100: the body of the loop over the rows. *)
Definition gps_row_body (d : list (list float))
    : nat * string → GPSDataset → M GPSDataset :=
  λ '(i, name) data,
    do lo <- lift (index2 d i 0);
    do la <- lift (index2 d i 1);
    do gps_station <- gps_components d i (mkGPSStation name lo la []);
    ret (add_station data gps_station).

(** lines 70-102 *)
Definition load_ascii_gps (filedir filename : string) : M GPSDataset :=
  let filepath := path_join filedir filename in
  do_ touch filepath;
  do names <- lift (loadtxt_str tfs filepath);
  do_ touch filepath;
  do d <- lift (loadtxt_float tfs filepath);
  if decide (length names ≠ length d)
  then raise (PyException "Number of stations and available data differs!")
  else for_in (enumerate names) (gps_row_body d) (mkGPSDataset ∅).

(** lines 105-116 *)
Definition load_and_blacklist_GPS (datadir filename : string)
    (blacklist : list string) : M (list GPSCompound) :=
  do gps_ds <- load_ascii_gps datadir filename;
  let gps_ds := remove_stations gps_ds blacklist in
  do st <- lift (index (values gps_ds) 0);
  let comps := get_component_names st in
  for_in comps (λ c targets, ret (targets ++ [get_compound gps_ds c])) [].
End GPS.

(** ** Waveform trace loader (lines 128-164) *)

(** The fields of a [pyrocko.model.Station] the loader reads. *)
Record Station := mkStation { network : string; station : string }.

(** A [pyrocko.trace.Trace]: identity, timing and the amplitude samples. *)
Record Trace := mkTrace {
  tr_network : string;
  tr_station : string;
  tr_channel : string;
  tmin : float;
  deltat : float;
  ydata : list float
}.

(** [tr.set_ydata(y)] *)
Definition set_ydata (tr : Trace) (y : list float) : Trace :=
  mkTrace (tr_network tr) (tr_station tr) (tr_channel tr) (tmin tr) (deltat tr) y.

(** The file system as the loader meets it: whether [open(path)] succeeds,
    and what [pyrocko.io.load(path, format)] returns or raises. *)
Record wavefs := mkWavefs {
  can_open : string → bool;
  io_load : string → string → res (list Trace)
}.

Definition trc_name_divider : string := "-".
Definition data_format : string := "mseed".

(** lines 137-142 *)
Definition ref_channel_of (cha : string) : res string :=
  if decide (cha = "Z") then Ok "u"
  else if decide (cha = "T") then Ok "r"
  else Raise (PyException "No data for this channel!").

(** lines 150-151 *)
Definition trace_name_of (st : Station) (ref_channel : string) : string :=
  String.concat trc_name_divider ["reference"; network st; station st; ref_channel].

(** line 153 *)
Definition tracepath_of (datadir : string) (st : Station) (ref_channel : string) : string :=
  datadir +:+ trace_name_of st ref_channel +:+ "." +:+ data_format.

(** line 159: [ydata * m] on the sample array. *)
Definition rescale (tr : Trace) : Trace :=
  set_ydata tr ((λ y, y * m)%float <$> ydata tr).

Section Traces.
Variable wfs : wavefs.

(** [open(path)] *)
Definition py_open (path : string) : M unit :=
  do_ touch path;
  if can_open wfs path then ret tt else raise IOError.

(** lines 150-162, one pass of the inner loop. *)
Definition load_one (datadir ref_channel : string) (st : Station)
    (data_trcs : list Trace) : M (list Trace) :=
  let trace_name := trace_name_of st ref_channel in
  let tracepath := tracepath_of datadir st ref_channel in
  try_IOError
    (do_ py_open tracepath;
     do_ touch tracepath;
     do trs <- lift (io_load wfs tracepath data_format);
     do data_trace <- lift (index trs 0);
     ret (data_trcs ++ [rescale data_trace]))
    (do_ logger (LogWarn ("Unable to open file: " +:+ trace_name));
     ret data_trcs).

(** lines 128-164 *)
Definition load_data_traces (datadir : string) (stations : list Station)
    (channels : list string) : M (list Trace) :=
  do ref_channels <-
    for_in channels
      (λ cha ref_channels,
         do rc <- lift (ref_channel_of cha); ret (ref_channels ++ [rc]))
      [];
  for_in ref_channels
    (λ ref_channel data_trcs,
       for_in stations (load_one datadir ref_channel) data_trcs)
    [].
End Traces.

(** The elements of a list at positions 0, 2, 4, ... *)
Fixpoint evens {A} (l : list A) : list A :=
  match l with
  | [] => []
  | x :: t => x :: match t with [] => [] | _ :: t' => evens t' end
  end.

(** ** Sample inputs *)

Definition sample_quad : gmap string matval :=
  {[ "cfoc" := MMat [[1%float; 2%float]; [3%float; 4%float]];
     "lvQT" := MStruct [("inci", MVec [5%float; 6%float]);
                        ("head", MVec [7%float; 8%float])];
     "sqval" := MVec [9%float; 10%float];
     "ODW_sub" := MVec [11%float; 12%float] ]}.

Definition sample_cov : gmap string matval :=
  {[ "Cov" := MMat [[1%float; 0%float]; [0%float; 1%float]] ]}.

(** A stand-in for the projection: it only has to be some function. *)
Definition sample_utm (x y : list float) (zone : Z) : list float * list float :=
  (y, x).

Definition sample_record (k : string) : DiffIFG :=
  mkDiffIFG k (MVec [9%float; 10%float])
    [1%float; 3%float] [2%float; 4%float] [2%float; 4%float] [1%float; 3%float]
    (mkCovariance (MMat [[1%float; 0%float]; [0%float; 1%float]]))
    (MVec [5%float; 6%float]) (MVec [7%float; 8%float]) (MVec [11%float; 12%float]).

(** A directory where every scene has both files. *)
Definition fs_all : matfs := λ path,
  if String.prefix "d/CovMatrix_" path then Ok sample_cov else Ok sample_quad.

(** A directory with both files of scene A and no covariance file of B. *)
Definition fs_AB : matfs := λ path,
  if decide (path = "d/quad_A.mat") then Ok sample_quad
  else if decide (path = "d/CovMatrix_A.mat") then Ok sample_cov
  else if decide (path = "d/quad_B.mat") then Ok sample_quad
  else Raise IOError.

(** A directory whose file [quad_A.mat] is there but is no MATLAB file:
    scipy raises [ValueError] on it. *)
Definition fs_unparseable : matfs := λ path,
  if decide (path = "d/quad_A.mat") then Raise (OtherError "ValueError")
  else if decide (path = "d/CovMatrix_A.mat") then Ok sample_cov
  else Raise IOError.

(** The station the spec describes for one table row: the name, longitude
    and latitude of the row, and the components E, N, U in this order, each
    with the velocity and the uncertainty of its columns divided by 1000. *)
Definition station_of_row (name : string) (row : list float) : GPSStation :=
  let col c := nth c row 0%float in
  mkGPSStation name (col 0) (col 1)
    [("E", mkGPSComponent "E" (col 2%nat / 1000)%float (col 5%nat / 1000)%float);
     ("N", mkGPSComponent "N" (col 3%nat / 1000)%float (col 6%nat / 1000)%float);
     ("U", mkGPSComponent "U" (col 4%nat / 1000)%float (col 7%nat / 1000)%float)].

(** The dataset with the station of one more row. *)
Definition insert_row (sts : gmap string GPSStation) (nr : string * list float)
    : gmap string GPSStation :=
  <[nr.1 := station_of_row nr.1 nr.2]> sts.

Definition add_row (ds : GPSDataset) (nr : string * list float) : GPSDataset :=
  mkGPSDataset (insert_row (stations ds) nr).

(** A table of two stations. *)
Definition sample_rows : list (list float) :=
  [[35.5; 31.25; 3; 4.5; (-1); 0.5; 0.25; 2]%float;
   [34.75; 32; 2; 5; 0.5; 1; 0.5; 4]%float].

Definition sample_tfs : txtfs :=
  mkTxtfs (λ _, Ok ["DRAG"; "ELAT"]) (λ _, Ok sample_rows).

(** The same file with the last numeric row missing. *)
Definition sample_tfs_short : txtfs :=
  mkTxtfs (λ _, Ok ["DRAG"; "ELAT"]) (λ _, Ok (take 1 sample_rows)).

Definition sample_dataset : GPSDataset :=
  foldl add_row (mkGPSDataset ∅) (zip ["DRAG"; "ELAT"] sample_rows).

Definition sample_world : world := World [] ["dir/gps.txt"; "dir/gps.txt"].

(** ** The waveform loader in the words of the spec *)

(** The fixed table of channel codes. *)
Definition channel_table : list (string * string) := [("Z", "u"); ("T", "r")].

Fixpoint table_ref (table : list (string * string)) (cha : string) : option string :=
  match table with
  | [] => None
  | (c, rc) :: rest => if decide (c = cha) then Some rc else table_ref rest cha
  end.

(** The reference channels of the requested ones, if all are in the table. *)
Fixpoint ref_channels_of (channels : list string) : option (list string) :=
  match channels with
  | [] => Some []
  | cha :: rest =>
      match table_ref channel_table cha, ref_channels_of rest with
      | Some rc, Some rcs => Some (rc :: rcs)
      | _, _ => None
      end
  end.

(** Channel-major, station-minor: all stations for the first channel, then
    all stations for the second, and so on. *)
Definition channel_major {A B} (chs : list A) (sts : list B) : list (A * B) :=
  flat_map (λ rc, pair rc <$> sts) chs.

Section Traces_spec.
Variable wfs : wavefs.
Variable datadir : string.

(** The trace a (channel, station) pair contributes: the first segment of
    its file, rescaled, if the file opens and loads. *)
Definition loaded_trace (p : string * Station) : option Trace :=
  let path := tracepath_of datadir p.2 p.1 in
  if can_open wfs path then
    match io_load wfs path data_format with
    | Ok (tr :: _) => Some (rescale tr)
    | _ => None
    end
  else None.

(** The diagnostic of a pair that contributes none. *)
Definition skip_warning (p : string * Station) : option logrec :=
  match loaded_trace p with
  | Some _ => None
  | None => Some (LogWarn ("Unable to open file: " +:+ trace_name_of p.2 p.1))
  end.

(** The world after the pass for a pair. *)
Definition after_load (w : world) (p : string * Station) : world :=
  let path := tracepath_of datadir p.2 p.1 in
  World (wlog w ++ option_list (skip_warning p))
        (wreads w ++ if can_open wfs path then [path; path] else [path]).

(** A file that, if it opens, loads at least one segment or fails with the
    [IOError] the loader catches. *)
Definition tolerant (p : string * Station) : Prop :=
  let path := tracepath_of datadir p.2 p.1 in
  can_open wfs path = true →
  io_load wfs path data_format = Raise IOError ∨
  ∃ tr rest, io_load wfs path data_format = Ok (tr :: rest).
End Traces_spec.

(** Two stations; the transverse file of the first is missing. *)
Definition sample_stations : list Station :=
  [mkStation "IU" "ANMO"; mkStation "II" "KDAK"].

Definition sample_trace (sta cha : string) (y : list float) : Trace :=
  mkTrace "XX" sta cha 0%float 0.5%float y.

Definition sample_wfs : wavefs :=
  mkWavefs
    (λ path, negb (String.eqb path "d/reference-IU-ANMO-r.mseed"))
    (λ path _,
       if decide (path = "d/reference-IU-ANMO-u.mseed")
       then Ok [sample_trace "ANMO" "u" [1000000000; 3]%float]
       else if decide (path = "d/reference-II-KDAK-u.mseed")
       then Ok [sample_trace "KDAK" "u" [2; (-4)]%float; sample_trace "KDAK" "u" []]
       else if decide (path = "d/reference-II-KDAK-r.mseed")
       then Ok [sample_trace "KDAK" "r" [5]%float]
       else Raise IOError).

Definition sample_loaded : list Trace :=
  omap (loaded_trace sample_wfs "d/") (channel_major ["u"; "r"] sample_stations).

Definition sample_wave_world : world :=
  foldl (after_load sample_wfs "d/") w0 (channel_major ["u"; "r"] sample_stations).

(** A directory with no file at all. *)
Definition fs_none : matfs := λ _, Raise IOError.

(** A directory where scene C has both files, but [quad_C.mat] holds no
    'cfoc' variable. *)
Definition fs_malformed : matfs := λ path,
  if decide (path = "d/quad_C.mat") then Ok (delete "cfoc" sample_quad)
  else fs_all path.

(** The paths a call has read are [rs]; each of them satisfies [Good]. *)
Definition reads_within (Good : string → Prop) (w w' : world) : Prop :=
  ∃ rs, wreads w' = wreads w ++ rs ∧ ∀ p, p ∈ rs → Good p.

(** A directory without the table file, and an empty table. *)
Definition sample_tfs_missing : txtfs :=
  mkTxtfs (λ _, Raise IOError) (λ _, Raise IOError).

Definition sample_tfs_empty : txtfs := mkTxtfs (λ _, Ok []) (λ _, Ok []).

(** Waveform directories: every file opens but holds no segment; every file
    opens but is no waveform file; no file is there; every file holds one
    segment. *)
Definition sample_wfs_empty : wavefs := mkWavefs (λ _, true) (λ _ _, Ok []).

Definition sample_wfs_broken : wavefs :=
  mkWavefs (λ _, true) (λ _ _, Raise (OtherError "FileLoadError")).

Definition sample_wfs_closed : wavefs := mkWavefs (λ _, false) (λ _ _, Raise IOError).

Definition sample_wfs_open : wavefs :=
  mkWavefs (λ _, true) (λ _ _, Ok [sample_trace "STA" "c" [1]%float]).

(** * Properties *)

Lemma bind_Ok {A B} (c : M A) (k : A → M B) w a w' :
  c w = (Ok a, w') → bind c k w = k a w'.
Proof. intros H. unfold bind. by rewrite H. Qed.

Lemma bind_Raise {A B} (c : M A) (k : A → M B) w e w' :
  c w = (Raise e, w') → bind c k w = (Raise e, w').
Proof. intros H. unfold bind. by rewrite H. Qed.

(** ** Interferogram loader *)

Section SAR_properties.
Variable utm_to_lonlat : list float → list float → Z → list float * list float.
Variable fs : matfs.

#[local] Abbreviation load_matfile := (load_matfile fs).
#[local] Abbreviation make_diffg := (make_diffg utm_to_lonlat).
#[local] Abbreviation sar_body := (sar_body utm_to_lonlat fs).
#[local] Abbreviation sar_loop := (sar_loop utm_to_lonlat fs).
#[local] Abbreviation load_SAR_data := (load_SAR_data utm_to_lonlat fs).
#[local] Abbreviation describes := (describes utm_to_lonlat).
#[local] Abbreviation loads := (loads fs).
#[local] Abbreviation absent_or_loads := (absent_or_loads fs).
#[local] Abbreviation benign := (benign utm_to_lonlat fs).
#[local] Abbreviation missing_warning := (missing_warning fs).
#[local] Abbreviation diagnosed := (diagnosed fs).
#[local] Abbreviation diagnostics_cover := (diagnostics_cover fs).

Lemma getitem_Ok d key x : getitem d key = Ok x ↔ d !! key = Some x.
Proof. unfold getitem. destruct (d !! key); naive_solver. Qed.

Lemma make_diffg_describes k data covs d :
  make_diffg k data covs = Ok d ↔ describes k data covs d.
Proof.
  unfold make_diffg, describes. split.
  - destruct (getitem data "cfoc") as [cfoc|] eqn:Hc; [|done].
    destruct (column cfoc 0) as [utmx|] eqn:Hx; [|done].
    destruct (column cfoc 1) as [utmy|] eqn:Hy; [|done].
    destruct (utm_to_lonlat utmx utmy 36) as [lo la] eqn:Hu.
    destruct (getitem data "lvQT") as [Lv|] eqn:HL; [|done].
    destruct (getitem covs "Cov") as [cv|] eqn:Hv; [|done].
    destruct (getitem data "sqval") as [sq|] eqn:Hs; [|done].
    destruct (getattr Lv "inci") as [inci|] eqn:Hi; [|done].
    destruct (getattr Lv "head") as [hd|] eqn:Hh; [|done].
    destruct (getitem data "ODW_sub") as [od|] eqn:Ho; [|done].
    intros [= <-]. simpl. apply getitem_Ok in Hc, HL, Hv, Hs, Ho.
    repeat split; eauto.
  - destruct d as [n sq ux uy lo la [cv] inci hd od]. simpl.
    intros (-> & (cfoc & Hc & Hx & Hy) & Hu & Hs & (Lv & HL & Hi & Hh) & Ho & Hv).
    apply getitem_Ok in Hc, HL, Hv, Hs, Ho.
    by rewrite Hc, Hx, Hy, Hu, HL, Hv, Hs, Hi, Hh, Ho.
Qed.

Lemma load_matfile_Ok path w data :
  fs path = Ok data →
  load_matfile path w = (Ok (Some data), World (wlog w) (wreads w ++ [path])).
Proof. intros H. unfold load_matfile, try_IOError, bind, touch, lift. by rewrite H. Qed.

Lemma load_matfile_IOError path w :
  fs path = Raise IOError →
  load_matfile path w =
    (Ok None, World (wlog w ++ [LogWarn ("File " +:+ path +:+ " does not exist.")])
                    (wreads w ++ [path])).
Proof. intros H. unfold load_matfile, try_IOError, bind, touch, lift. by rewrite H. Qed.

Lemma load_matfile_Raise path w e :
  fs path = Raise e → e ≠ IOError →
  load_matfile path w = (Raise e, World (wlog w) (wreads w ++ [path])).
Proof.
  intros H Hne. unfold load_matfile, try_IOError, bind, touch, lift.
  rewrite H. by destruct e.
Qed.

(** What one pass does, by what the two reads give. *)
Lemma sar_body_loads datadir k w data covs d :
  loads datadir k data covs → describes k data covs d →
  sar_body datadir k w = (Ok (Some d), read_both datadir k w).
Proof.
  intros [Hq Hc] Hd. apply make_diffg_describes in Hd. unfold sar_body.
  erewrite bind_Ok by (by apply load_matfile_Ok).
  erewrite bind_Ok by (by apply load_matfile_Ok).
  unfold bind, lift, ret, read_both. rewrite Hd. simpl. by rewrite <- app_assoc.
Qed.

Lemma sar_body_absent datadir k w :
  absent_or_loads (quad_path datadir k) → absent_or_loads (cov_path datadir k) →
  (¬ ∃ data covs, loads datadir k data covs) →
  sar_body datadir k w = (Ok None, diagnosed datadir k w).
Proof.
  intros Hq Hc Hno. unfold sar_body, diagnosed, missing_warning, absent_or_loads in *.
  destruct (fs (quad_path datadir k)) as [data|e] eqn:Eq;
    destruct (fs (cov_path datadir k)) as [covs|e'] eqn:Ec.
  - destruct Hno. exists data, covs. by split.
  - rewrite (Hc e') in Ec |- * by done.
    erewrite bind_Ok by (by apply load_matfile_Ok).
    erewrite bind_Ok by (by apply load_matfile_IOError).
    unfold bind, logger, ret. simpl. by rewrite <- !app_assoc.
  - rewrite (Hq e) in Eq |- * by done.
    erewrite bind_Ok by (by apply load_matfile_IOError).
    erewrite bind_Ok by (by apply load_matfile_Ok).
    unfold bind, logger, ret. simpl. by rewrite <- !app_assoc.
  - rewrite (Hq e) in Eq |- * by done. rewrite (Hc e') in Ec |- * by done.
    erewrite bind_Ok by (by apply load_matfile_IOError).
    erewrite bind_Ok by (by apply load_matfile_IOError).
    unfold bind, logger, ret. simpl. by rewrite <- !app_assoc.
Qed.

(** A pass that yields a record had both files loaded, and the record is
    the described one. *)
Lemma sar_body_Some_inv datadir k w d w' :
  sar_body datadir k w = (Ok (Some d), w') →
  ∃ data covs, loads datadir k data covs ∧ describes k data covs d ∧
               w' = read_both datadir k w.
Proof.
  unfold sar_body, loads. intros H.
  destruct (fs (quad_path datadir k)) as [data|e] eqn:Eq.
  - erewrite bind_Ok in H by (by apply load_matfile_Ok).
    destruct (fs (cov_path datadir k)) as [covs|e'] eqn:Ec.
    + erewrite bind_Ok in H by (by apply load_matfile_Ok).
      unfold bind, lift, ret in H.
      destruct (make_diffg k data covs) as [d'|] eqn:Hd; [|done].
      injection H as <- <-. exists data, covs.
      apply make_diffg_describes in Hd.
      unfold read_both. simpl. by rewrite <- app_assoc.
    + destruct (decide (e' = IOError)) as [->|Hne].
      * erewrite bind_Ok in H by (by apply load_matfile_IOError). done.
      * erewrite bind_Raise in H by (by apply load_matfile_Raise). done.
  - destruct (decide (e = IOError)) as [->|Hne].
    + erewrite bind_Ok in H by (by apply load_matfile_IOError).
      destruct (fs (cov_path datadir k)) as [covs|e'] eqn:Ec.
      * erewrite bind_Ok in H by (by apply load_matfile_Ok). done.
      * destruct (decide (e' = IOError)) as [->|Hne].
        -- erewrite bind_Ok in H by (by apply load_matfile_IOError). done.
        -- erewrite bind_Raise in H by (by apply load_matfile_Raise). done.
    + erewrite bind_Raise in H by (by apply load_matfile_Raise). done.
Qed.

(** The loop always ends within its fuel; the list it leaves is the
    caller's list less as many leading elements as records were built;
    every record comes from an identifier of the list whose two files
    loaded. *)
Lemma sar_loop_run datadir fuel : ∀ i names acc w,
  length names - i < fuel →
  ∃ r names' w', sar_loop datadir fuel i names acc w = Some (r, names', w') ∧
    match r with
    | Ok ds => ∃ new, ds = acc ++ new ∧ names' = drop (length new) names ∧
        Forall (λ d, ifg_name d ∈ names ∧
                     ∃ data covs, loads datadir (ifg_name d) data covs ∧
                                  describes (ifg_name d) data covs d) new
    | Raise _ => ∃ n, names' = drop n names
    end.
Proof.
  induction fuel as [|fuel IH]; intros i names acc w Hf; [lia|]. simpl.
  destruct (names !! i) as [k|] eqn:Hk.
  - pose proof (lookup_lt_Some _ _ _ Hk) as Hi.
    destruct (sar_body datadir k w) as [[[d|]|e] w1] eqn:Hb.
    + destruct names as [|x names0]; [done|]. simpl in *.
      destruct (IH (S i) names0 (acc ++ [d]) w1) as (r & names' & w' & -> & Hr); [lia|].
      exists r, names', w'. split; [done|]. destruct r as [ds|e].
      * destruct Hr as (new & -> & -> & Hall). exists (d :: new).
        split; [by rewrite <- app_assoc|]. split; [done|].
        apply sar_body_Some_inv in Hb as (data & covs & Hl & Hd & _).
        assert (ifg_name d = k) as Hn by apply Hd.
        constructor.
        -- rewrite Hn. split; [by eapply list_elem_of_lookup_2|]. eauto.
        -- eapply Forall_impl; [exact Hall|]. intros d' [Hin ?]. split; [|done].
           by right.
      * destruct Hr as [n ->]. by exists (S n).
    + destruct (IH (S i) names acc w1) as (r & names' & w' & -> & Hr); [lia|].
      by exists r, names', w'.
    + exists (Raise e), names, w1. split; [done|]. by exists 0.
  - exists (Ok acc), names, w. split; [done|]. exists []. by rewrite app_nil_r.
Qed.

Lemma diagnostics_cover_refl datadir w : diagnostics_cover datadir w w.
Proof.
  exists [], []. rewrite !app_nil_r. split; [done|]. split; [done|].
  intros path Hin. by apply elem_of_nil in Hin.
Qed.

Lemma diagnostics_cover_read_both datadir k w w' data covs :
  loads datadir k data covs →
  diagnostics_cover datadir (read_both datadir k w) w' →
  diagnostics_cover datadir w w'.
Proof.
  intros [Hq Hc] (rs & ls & Hr & Hl & H). simpl in *.
  exists ([quad_path datadir k; cov_path datadir k] ++ rs), ls.
  rewrite Hr, Hl, <- app_assoc. split; [done|]. split; [done|].
  intros path Hin Hp. apply elem_of_app in Hin as [Hin|Hin]; [|by apply H].
  apply elem_of_cons in Hin as [->|Hin]; [congruence|].
  apply list_elem_of_singleton in Hin as ->. congruence.
Qed.

Lemma diagnostics_cover_diagnosed datadir k w w' :
  diagnostics_cover datadir (diagnosed datadir k w) w' →
  diagnostics_cover datadir w w'.
Proof.
  intros (rs & ls & Hr & Hl & H). simpl in *.
  exists ([quad_path datadir k; cov_path datadir k] ++ rs),
    ((missing_warning (quad_path datadir k) ++ missing_warning (cov_path datadir k)
      ++ [LogInfo ("File " +:+ datadir +:+ " was no SAR data?!")]) ++ ls).
  rewrite Hr, Hl, <- !app_assoc. split; [done|]. split; [done|].
  intros path Hin Hp. apply elem_of_app in Hin as [Hin|Hin].
  - split; [|rewrite !elem_of_app, list_elem_of_singleton; tauto].
    assert (LogWarn ("File " +:+ path +:+ " does not exist.") ∈ missing_warning path)
      as Hw by (unfold missing_warning; rewrite Hp; apply list_elem_of_singleton; done).
    apply elem_of_cons in Hin as [->|Hin].
    + rewrite !elem_of_app. tauto.
    + apply list_elem_of_singleton in Hin as ->. rewrite !elem_of_app. tauto.
  - destruct (H path Hin Hp). rewrite !elem_of_app. tauto.
Qed.

(** With readers that fail by [IOError] only and files that expose the
    contract's fields, the call returns normally. *)
Lemma sar_loop_benign datadir fuel : ∀ i names acc w,
  Forall (benign datadir) names → length names - i < fuel →
  ∃ new names' w',
    sar_loop datadir fuel i names acc w = Some (Ok (acc ++ new), names', w') ∧
    diagnostics_cover datadir w w'.
Proof.
  induction fuel as [|fuel IH]; intros i names acc w Hall Hf; [lia|]. simpl.
  destruct (names !! i) as [k|] eqn:Hk.
  - pose proof (lookup_lt_Some _ _ _ Hk) as Hi.
    assert (benign datadir k) as (Hq & Hc & Hd)
      by (eapply Forall_forall; [exact Hall|by eapply list_elem_of_lookup_2]).
    destruct (fs (quad_path datadir k)) as [data|e] eqn:Eq;
      [destruct (fs (cov_path datadir k)) as [covs|e'] eqn:Ec|].
    + destruct (Hd data covs) as [d Hdesc]; [done|].
      rewrite (sar_body_loads datadir k w data covs d) by done.
      destruct names as [|x names0]; [done|]. simpl in *.
      destruct (IH (S i) names0 (acc ++ [d]) (read_both datadir k w))
        as (new & names' & w' & -> & Hcov); [by inversion Hall|lia|].
      exists (d :: new), names', w'. rewrite <- app_assoc. split; [done|].
      by eapply diagnostics_cover_read_both.
    + rewrite sar_body_absent; [|done|done|].
      * destruct (IH (S i) names acc (diagnosed datadir k w))
          as (new & names' & w' & -> & Hcov); [done|lia|].
        exists new, names', w'. split; [done|].
        by eapply diagnostics_cover_diagnosed.
      * intros (? & ? & ? & ?). congruence.
    + rewrite sar_body_absent; [|done|done|].
      * destruct (IH (S i) names acc (diagnosed datadir k w))
          as (new & names' & w' & -> & Hcov); [done|lia|].
        exists new, names', w'. split; [done|].
        by eapply diagnostics_cover_diagnosed.
      * intros (? & ? & ? & ?). congruence.
  - exists [], names, w. rewrite app_nil_r. split; [done|].
    apply diagnostics_cover_refl.
Qed.

Lemma evens_cons {A} (x : A) (l : list A) : evens (x :: l) = x :: evens (drop 1 l).
Proof. by destruct l. Qed.

(** When every identifier loads, pass [i] meets what was at position
    [2 * i] of the caller's list. *)
Lemma sar_loop_all_load datadir fuel : ∀ i names acc w,
  Forall (λ k, ∃ data covs d, loads datadir k data covs ∧ describes k data covs d) names →
  length names - i < fuel →
  ∃ new w',
    sar_loop datadir fuel i names acc w
      = Some (Ok (acc ++ new), drop (length new) names, w') ∧
    ifg_name <$> new = evens (drop i names).
Proof.
  induction fuel as [|fuel IH]; intros i names acc w Hall Hf; [lia|]. simpl.
  destruct (names !! i) as [k|] eqn:Hk.
  - pose proof (lookup_lt_Some _ _ _ Hk) as Hi.
    assert (∃ data covs d, loads datadir k data covs ∧ describes k data covs d)
      as (data & covs & d & Hl & Hd)
      by (eapply Forall_forall in Hall; [exact Hall|by eapply list_elem_of_lookup_2]).
    rewrite (sar_body_loads datadir k w data covs d) by done.
    destruct names as [|x names0]; [done|]. simpl in *.
    destruct (IH (S i) names0 (acc ++ [d]) (read_both datadir k w))
      as (new & w' & -> & Hev); [by inversion Hall|lia|].
    exists (d :: new), w'. rewrite <- app_assoc. split; [done|].
    rewrite fmap_cons, Hev.
    rewrite (drop_S (x :: names0) k i Hk), evens_cons, drop_drop.
    assert (ifg_name d = k) as -> by apply Hd.
    by replace (S i + 1) with (S (S i)) by lia.
  - exists [], w. rewrite app_nil_r. split; [done|].
    apply lookup_ge_None in Hk. by rewrite drop_ge.
Qed.

Lemma evens_lookup {A} : ∀ (j : nat) (l : list A), evens l !! j = l !! (2 * j).
Proof.
  induction j as [|j IH]; intros [|x [|y t]]; try done.
  replace (2 * S j) with (S (S (2 * j))) by lia. simpl. apply IH.
Qed.

Lemma evens_length {A} (l : list A) :
  length (evens l) = (length l + 1) / 2 ∧
  ∀ x, length (evens (x :: l)) = (length l + 2) / 2.
Proof.
  induction l as [|y t [IH1 IH2]]; [done|]. split.
  - rewrite IH2. f_equal. simpl. lia.
  - intros x. change (evens (x :: y :: t)) with (x :: evens t).
    cbn [length]. rewrite IH1.
    replace (S (length t) + 2) with (length t + 1 + 1 * 2) by lia.
    rewrite Nat.div_add by done. lia.
Qed.

(** C10: given n distinct identifiers whose companion files are all
    present and parseable, load_SAR_data returns observations only for
    the identifiers at the even original positions 0, 2, 4, ..., that is
    ceil(n/2) of them and not n, because removing the first element of
    the list after each load moves the iteration past the next
    identifier. *)
Theorem load_SAR_data_every_other datadir (names : list string) w :
  Forall (λ k, ∃ data covs d, loads datadir k data covs ∧ describes k data covs d)
         names →
  NoDup names →
  ∃ ds w',
    load_SAR_data datadir names w = Some (Ok ds, drop (length ds) names, w') ∧
    ifg_name <$> ds = evens names ∧
    length ds = (length names + 1) / 2 ∧
    ∀ i k, names !! i = Some k → (k ∈ ifg_name <$> ds ↔ Nat.Even i).
Proof.
  intros Hall Hnd. unfold load_SAR_data.
  destruct (sar_loop_all_load datadir (S (length names)) 0 names [] w)
    as (ds & w' & Hrun & Hev); [done|lia|].
  simpl in Hrun, Hev. rewrite drop_0 in Hev.
  exists ds, w'. split; [done|]. split; [done|]. split.
  - rewrite <- (length_fmap ifg_name), Hev. apply evens_length.
  - intros i k Hi. rewrite Hev. split.
    + intros Hin. apply list_elem_of_lookup in Hin as [j Hj].
      rewrite evens_lookup in Hj.
      rewrite (NoDup_lookup names i (2 * j) k Hnd Hi Hj). by exists j.
    + intros [j ->]. apply list_elem_of_lookup. exists j.
      by rewrite evens_lookup.
Qed.



End SAR_properties.

Lemma sample_describes k : describes sample_utm k sample_quad sample_cov (sample_record k).
Proof. apply make_diffg_describes. reflexivity. Qed.

Lemma fs_all_loads k :
  k ∈ ["A"; "B"; "C"] → loads fs_all "d/" k sample_quad sample_cov.
Proof.
  intros Hk. repeat (apply elem_of_cons in Hk as [->|Hk]; [by split|]).
  by apply elem_of_nil in Hk.
Qed.

Lemma fs_AB_benign : Forall (benign sample_utm fs_AB "d/") ["A"; "B"].
Proof.
  repeat constructor.
  - intros e He. vm_compute in He. congruence.
  - intros e He. vm_compute in He. congruence.
  - intros data covs [Hq Hc]. exists (sample_record "A").
    change (fs_AB (quad_path "d/" "A")) with (Ok (A:=gmap string matval) sample_quad) in Hq.
    change (fs_AB (cov_path "d/" "A")) with (Ok (A:=gmap string matval) sample_cov) in Hc.
    injection Hq as <-. injection Hc as <-. apply sample_describes.
  - intros e He. vm_compute in He. congruence.
  - intros e He. vm_compute in He. congruence.
  - intros data covs [Hq Hc]. vm_compute in Hc. congruence.
Qed.

Lemma load_SAR_data_every_other_witness :
  ∃ ds w',
    load_SAR_data sample_utm fs_all "d/" ["A"; "B"; "C"] w0
      = Some (Ok ds, drop (length ds) ["A"; "B"; "C"], w') ∧
    ifg_name <$> ds = ["A"; "C"] ∧
    length ds = 2 ∧
    ∀ i k, ["A"; "B"; "C"] !! i = Some k → (k ∈ ifg_name <$> ds ↔ Nat.Even i).
Proof.
  apply (load_SAR_data_every_other sample_utm fs_all "d/" ["A"; "B"; "C"] w0).
  - apply Forall_forall. intros k Hk.
    exists sample_quad, sample_cov, (sample_record k).
    split; [by apply fs_all_loads | apply sample_describes].
  - compute_done.
Defined.




(** The list loses its first element although the record is of the second:
    B has no covariance file, A loads, and it is B that is removed. *)
Example load_SAR_data_pops_other :
  load_SAR_data sample_utm fs_AB "d/" ["B"; "A"] w0
    = Some (Ok [sample_record "A"], ["A"],
            World [LogWarn "File d/CovMatrix_B.mat does not exist.";
                   LogInfo "File d/ was no SAR data?!"]
                  ["d/quad_B.mat"; "d/CovMatrix_B.mat";
                   "d/quad_A.mat"; "d/CovMatrix_A.mat"]).
Proof. reflexivity. Qed.

(** ** Station-velocity table loader *)

Section GPS_properties.
Variable tfs : txtfs.

#[local] Abbreviation load_ascii_gps := (load_ascii_gps tfs).
#[local] Abbreviation load_and_blacklist_GPS := (load_and_blacklist_GPS tfs).

Lemma gps_row_body_ok d i name row data w :
  d !! i = Some row → length row = 8 →
  gps_row_body d (i, name) data w = (Ok (add_row data (name, row)), w).
Proof.
  intros Hi Hlen.
  do 9 (destruct row as [|? row]; try done).
  unfold gps_row_body, gps_components, bind, lift, ret, index2, index. simpl.
  rewrite Hi. simpl. reflexivity.
Qed.

Lemma gps_rows_loop d : ∀ (names : list string) rows start data w,
  length names = length rows →
  Forall (λ row, length row = 8) rows →
  (∀ j row, rows !! j = Some row → d !! (start + j) = Some row) →
  for_in (zip (seq start (length names)) names) (gps_row_body d) data w
    = (Ok (foldl add_row data (zip names rows)), w).
Proof.
  induction names as [|name names IH]; intros [|row rows] start data w Hlen Hall Hd;
    try done.
  simpl in *. inversion Hall as [|? ? Hrow Hall']; subst.
  erewrite bind_Ok; [|apply (gps_row_body_ok d start name row); [|done]].
  - apply IH; [lia|done|]. intros j r Hj.
    replace (S start + j) with (start + S j) by lia. by apply Hd.
  - rewrite <- (Nat.add_0_r start). by apply Hd.
Qed.

Lemma stations_foldl_add_row l : ∀ ds,
  stations (foldl add_row ds l)
    = foldl insert_row (stations ds) l.
Proof. induction l as [|nr l IH]; intros ds; [done|]. simpl. by rewrite IH. Qed.

Lemma foldl_ins_notin l : ∀ sts k,
  k ∉ l.*1 → foldl insert_row sts l !! k = sts !! k.
Proof.
  induction l as [|[k0 r0] l IH]; intros sts k Hk; [done|]. simpl in *.
  apply not_elem_of_cons in Hk as [Hne Hk].
  rewrite IH by done. unfold insert_row. simpl. by rewrite lookup_insert_ne.
Qed.

Lemma foldl_ins_in l : ∀ sts k r,
  NoDup l.*1 → (k, r) ∈ l → foldl insert_row sts l !! k = Some (station_of_row k r).
Proof.
  induction l as [|[k0 r0] l IH]; intros sts k r Hnd Hin.
  - by apply elem_of_nil in Hin.
  - simpl in *. apply NoDup_cons in Hnd as [Hk0 Hnd].
    apply elem_of_cons in Hin as [[= -> ->]|Hin].
    + rewrite foldl_ins_notin by done. unfold insert_row. simpl. apply lookup_insert_eq.
    + by apply IH.
Qed.

Lemma foldl_ins_inv l : ∀ sts k st,
  foldl insert_row sts l !! k = Some st →
  sts !! k = Some st ∨ ∃ r, (k, r) ∈ l ∧ st = station_of_row k r.
Proof.
  induction l as [|[k0 r0] l IH]; intros sts k st H; [by left|]. simpl in *.
  apply IH in H as [H|(r & Hin & ->)].
  - unfold insert_row in H. simpl in H. destruct (decide (k0 = k)) as [->|Hne].
    + rewrite lookup_insert_eq in H. injection H as <-.
      right. exists r0. split; [by left|done].
    + rewrite lookup_insert_ne in H by done. by left.
  - right. exists r. split; [by right|done].
Qed.

Lemma foldl_ins_size l : ∀ sts,
  NoDup l.*1 → (∀ k, k ∈ l.*1 → sts !! k = None) →
  size (foldl insert_row sts l) = size sts + length l.
Proof.
  induction l as [|[k0 r0] l IH]; intros sts Hnd Hfresh; simpl in *; [lia|].
  apply NoDup_cons in Hnd as [Hk0 Hnd].
  rewrite IH; [|done|].
  - unfold insert_row. simpl. rewrite map_size_insert_None; [lia|].
    apply Hfresh. by left.
  - intros k Hk. unfold insert_row. simpl. rewrite lookup_insert_ne.
    + apply Hfresh. by right.
    + intros ->. done.
Qed.

Lemma load_ascii_gps_reads filedir filename names d w :
  loadtxt_str tfs (path_join filedir filename) = Ok names →
  loadtxt_float tfs (path_join filedir filename) = Ok d →
  load_ascii_gps filedir filename w
    = (if decide (length names ≠ length d)
       then raise (PyException "Number of stations and available data differs!")
       else for_in (enumerate names) (gps_row_body d) (mkGPSDataset ∅))
        (World (wlog w)
               (wreads w ++ [path_join filedir filename; path_join filedir filename])).
Proof.
  intros Hn Hd. unfold load_ascii_gps, bind, touch, lift. simpl.
  rewrite Hn, Hd. by rewrite <- app_assoc.
Qed.



Lemma remove_stations_lookup (blacklist : list string) : ∀ ds n,
  stations (remove_stations ds blacklist) !! n
    = if decide (n ∈ blacklist) then None else stations ds !! n.
Proof.
  unfold remove_stations. simpl. intros [sts]. simpl. revert sts.
  induction blacklist as [|b bl IH]; intros sts n; cbn [foldl].
  - rewrite decide_False; [done|]. apply not_elem_of_nil.
  - rewrite IH. destruct (decide (n ∈ b :: bl)) as [Hin|Hin].
    + destruct (decide (n ∈ bl)); [done|].
      apply elem_of_cons in Hin as [->|?]; [apply lookup_delete_eq|done].
    + apply not_elem_of_cons in Hin as [Hne Hin]. rewrite decide_False by done.
      by rewrite lookup_delete_ne.
Qed.

Lemma targets_loop ds (comps : list string) : ∀ targets w,
  for_in comps (λ c targets, ret (targets ++ [get_compound ds c])) targets w
    = (Ok (targets ++ (get_compound ds <$> comps)), w).
Proof.
  induction comps as [|c comps IH]; intros targets w; simpl.
  - by rewrite app_nil_r.
  - unfold bind, ret. simpl. rewrite IH. by rewrite <- app_assoc.
Qed.

(** C6: load_and_blacklist_GPS loads the dataset, removes the blacklisted
    stations, takes the component names of one of the remaining stations
    (the first in the dict's own order) and returns exactly one compound
    target per component name; when the blacklist removes every station it
    fails (the lookup of the first station raises) instead of returning
    targets. *)
Theorem load_and_blacklist_GPS_targets datadir filename (blacklist : list string)
    w ds w1 :
  load_ascii_gps datadir filename w = (Ok ds, w1) →
  let kept := remove_stations ds blacklist in
  (∀ n, stations kept !! n
          = if decide (n ∈ blacklist) then None else stations ds !! n) ∧
  ((∀ n, is_Some (stations ds !! n) → n ∈ blacklist) →
     load_and_blacklist_GPS datadir filename blacklist w = (Raise IndexError, w1)) ∧
  ((∃ n, is_Some (stations ds !! n) ∧ n ∉ blacklist) →
     ∃ n st targets,
       stations kept !! n = Some st ∧
       load_and_blacklist_GPS datadir filename blacklist w = (Ok targets, w1) ∧
       targets = get_compound kept <$> get_component_names st ∧
       cmp_name <$> targets = get_component_names st).
Proof.
  intros Hload kept. split; [apply remove_stations_lookup|].
  unfold load_and_blacklist_GPS.
  erewrite bind_Ok by exact Hload. fold kept. split.
  - intros Hall. assert (stations kept = ∅) as Hempty.
    { apply map_eq. intros n. rewrite lookup_empty. unfold kept.
      rewrite remove_stations_lookup. case_decide; [done|].
      destruct (stations ds !! n) eqn:E; [|done]. destruct H. apply Hall. by eexists. }
    unfold bind, lift, index, values. by rewrite Hempty, map_to_list_empty.
  - intros (n0 & [st0 Hst0] & Hn0).
    assert (stations kept !! n0 = Some st0) as Hk.
    { unfold kept. rewrite remove_stations_lookup. by rewrite decide_False. }
    destruct (map_to_list (stations kept)) as [|[n st] l] eqn:Hl.
    { apply map_to_list_empty_iff in Hl. by rewrite Hl, lookup_empty in Hk. }
    exists n, st, (get_compound kept <$> get_component_names st).
    split; [|split; [|split; [done|]]].
    + apply elem_of_map_to_list. rewrite Hl. by left.
    + unfold bind, lift, index, values. rewrite Hl. simpl.
      by rewrite targets_loop.
    + rewrite <- list_fmap_compose. by apply list_fmap_id.
Qed.
End GPS_properties.



Lemma load_and_blacklist_GPS_targets_witness :
  load_and_blacklist_GPS sample_tfs "dir" "gps.txt" ["DRAG"; "ELAT"] w0
    = (Raise IndexError, sample_world) ∧
  ∃ n st targets,
    stations (remove_stations sample_dataset ["ELAT"; "NONE"]) !! n = Some st ∧
    load_and_blacklist_GPS sample_tfs "dir" "gps.txt" ["ELAT"; "NONE"] w0
      = (Ok targets, sample_world) ∧
    targets = get_compound (remove_stations sample_dataset ["ELAT"; "NONE"])
                <$> get_component_names st ∧
    cmp_name <$> targets = get_component_names st.
Proof.
  split.
  - apply (load_and_blacklist_GPS_targets sample_tfs "dir" "gps.txt" ["DRAG"; "ELAT"]
             w0 sample_dataset sample_world); [reflexivity|].
    intros n [st Hst]. unfold sample_dataset in Hst.
    rewrite stations_foldl_add_row in Hst.
    apply foldl_ins_inv in Hst as [Hst|(r & Hin & _)].
    + cbn [stations] in Hst. by rewrite lookup_empty in Hst.
    + apply elem_of_cons in Hin as [[= -> _]|Hin]; [by left|].
      apply elem_of_cons in Hin as [[= -> _]|Hin]; [by right; left|].
      by apply elem_of_nil in Hin.
  - apply (load_and_blacklist_GPS_targets sample_tfs "dir" "gps.txt" ["ELAT"; "NONE"]
             w0 sample_dataset sample_world); [reflexivity|].
    exists "DRAG". split; [by eexists|]. compute_done.
Defined.

(** ** Waveform trace loader *)

Lemma table_ref_spec cha :
  ref_channel_of cha
    = match table_ref channel_table cha with
      | Some rc => Ok rc
      | None => Raise (PyException "No data for this channel!")
      end.
Proof.
  unfold ref_channel_of, channel_table, table_ref.
  destruct (decide (cha = "Z")) as [->|HZ]; [done|].
  rewrite (decide_False (P := "Z" = cha)) by done.
  destruct (decide (cha = "T")) as [->|HT]; [done|].
  by rewrite (decide_False (P := "T" = cha)).
Qed.

(** The loop of lines 136-142 touches nothing: it yields the reference
    channels, or raises at the first code outside the table. *)
Lemma channels_loop (channels : list string) : ∀ acc w,
  for_in channels
    (λ cha ref_channels,
       do rc <- lift (ref_channel_of cha); ret (ref_channels ++ [rc])) acc w
  = match ref_channels_of channels with
    | Some rcs => (Ok (acc ++ rcs), w)
    | None => (Raise (PyException "No data for this channel!"), w)
    end.
Proof.
  induction channels as [|cha rest IH]; intros acc w; cbn [for_in ref_channels_of].
  - unfold ret. by rewrite app_nil_r.
  - unfold bind at 1. unfold bind at 1. unfold lift at 1.
    rewrite table_ref_spec.
    destruct (table_ref channel_table cha) as [rc|] eqn:E; [|done].
    unfold ret at 1. rewrite IH.
    destruct (ref_channels_of rest); [|done]. by rewrite <- app_assoc.
Qed.

Lemma ref_channels_of_unsupported (channels : list string) cha :
  cha ∈ channels → cha ≠ "Z" → cha ≠ "T" → ref_channels_of channels = None.
Proof.
  intros Hin HZ HT. induction channels as [|c rest IH]; [by apply elem_of_nil in Hin|].
  cbn [ref_channels_of]. apply elem_of_cons in Hin as [<-|Hin].
  - unfold channel_table, table_ref.
    by rewrite (decide_False (P := "Z" = cha)), (decide_False (P := "T" = cha)).
  - rewrite IH by done. by destruct (table_ref channel_table c).
Qed.

(** A loop keeps what every pass keeps. *)
Lemma for_in_invariant {A S} (P : S → Prop) (l : list A) (body : A → S → M S) :
  (∀ x s w s' w', x ∈ l → P s → body x s w = (Ok s', w') → P s') →
  ∀ s w s' w', P s → for_in l body s w = (Ok s', w') → P s'.
Proof.
  induction l as [|x l IH]; intros Hbody s w s' w' Hs Hrun; simpl in Hrun.
  - unfold ret in Hrun. by injection Hrun as <- <-.
  - unfold bind in Hrun. destruct (body x s w) as [[s1|e] w1] eqn:Hb; [|done].
    eapply IH; [|eapply Hbody; [by left|exact Hs|exact Hb]|exact Hrun].
    intros y t u t' u' Hy. apply Hbody. by right.
Qed.

Section Traces_properties.
Variable wfs : wavefs.
Variable datadir : string.

#[local] Abbreviation load_one := (load_one wfs datadir).
#[local] Abbreviation load_data_traces := (load_data_traces wfs datadir).
#[local] Abbreviation loaded_trace := (loaded_trace wfs datadir).
#[local] Abbreviation skip_warning := (skip_warning wfs datadir).
#[local] Abbreviation after_load := (after_load wfs datadir).
#[local] Abbreviation tolerant := (tolerant wfs datadir).

(** One pass under a tolerant file: the trace of the pair, if it has one,
    goes to the end of the result. *)
Lemma load_one_tolerant rc st acc w :
  tolerant (rc, st) →
  load_one rc st acc w
    = (Ok (acc ++ option_list (loaded_trace (rc, st))), after_load w (rc, st)).
Proof.
  intros Htol. unfold tolerant in Htol. cbn [fst snd] in Htol.
  unfold after_load, skip_warning. cbn [fst snd].
  unfold load_one, try_IOError, py_open, bind, touch, lift, raise, ret, logger, index.
  cbn [wlog wreads].
  destruct (can_open wfs (tracepath_of datadir st rc)) eqn:Hopen; cbn [wlog wreads].
  - destruct Htol as [Hio|(tr & rest & Hio)]; [done| |]; rewrite Hio; cbn [lookup list_lookup].
    + assert (loaded_trace (rc, st) = None) as ->
        by (unfold loaded_trace; cbn [fst snd]; by rewrite Hopen, Hio).
      cbn [option_list wlog wreads]. by rewrite app_nil_r, <- app_assoc.
    + assert (loaded_trace (rc, st) = Some (rescale tr)) as ->
        by (unfold loaded_trace; cbn [fst snd]; by rewrite Hopen, Hio).
      cbn [option_list wlog wreads]. by rewrite app_nil_r, <- app_assoc.
  - assert (loaded_trace (rc, st) = None) as ->
      by (unfold loaded_trace; cbn [fst snd]; by rewrite Hopen).
    cbn [option_list]. by rewrite app_nil_r.
Qed.

Lemma load_one_inv rc st acc w acc' w' :
  load_one rc st acc w = (Ok acc', w') →
  acc' = acc ∨
  ∃ raw rest, io_load wfs (tracepath_of datadir st rc) data_format = Ok (raw :: rest) ∧
              acc' = acc ++ [rescale raw].
Proof.
  unfold load_one, try_IOError, py_open, bind, touch, lift, raise, ret, logger, index.
  cbn [wlog wreads].
  destruct (can_open wfs (tracepath_of datadir st rc)); cbn [wlog wreads].
  - destruct (io_load wfs (tracepath_of datadir st rc) data_format) as [[|raw rest]|e].
    + cbn [lookup list_lookup]. done.
    + cbn [lookup list_lookup]. intros [= <- <-]. right. by exists raw, rest.
    + destruct e; intros [= <- <-] || done. by left.
  - intros [= <- <-]. by left.
Qed.

Lemma stations_loop rc (stations : list Station) : ∀ acc w,
  Forall tolerant (pair rc <$> stations) →
  for_in stations (load_one rc) acc w
    = (Ok (acc ++ omap loaded_trace (pair rc <$> stations)),
       foldl after_load w (pair rc <$> stations)).
Proof.
  induction stations as [|st sts IH]; intros acc w Hall; cbn [for_in fmap list_fmap].
  - unfold ret. by rewrite app_nil_r.
  - inversion Hall as [|? ? Hst Hall']; subst.
    erewrite bind_Ok by (by apply load_one_tolerant).
    rewrite IH by done. cbn [omap list_omap foldl].
    destruct (loaded_trace (rc, st)); cbn [option_list]; by rewrite <- app_assoc.
Qed.

Lemma channel_major_cons {A B} (rc : A) (rcs : list A) (sts : list B) :
  channel_major (rc :: rcs) sts = (pair rc <$> sts) ++ channel_major rcs sts.
Proof. done. Qed.

Lemma ref_channels_loop (stations : list Station) (ref_channels : list string) :
  ∀ acc w,
  Forall tolerant (channel_major ref_channels stations) →
  for_in ref_channels
    (λ ref_channel data_trcs, for_in stations (load_one ref_channel) data_trcs) acc w
    = (Ok (acc ++ omap loaded_trace (channel_major ref_channels stations)),
       foldl after_load w (channel_major ref_channels stations)).
Proof.
  induction ref_channels as [|rc rcs IH]; intros acc w Hall; cbn [for_in].
  - unfold ret. by rewrite app_nil_r.
  - rewrite channel_major_cons in Hall |- *. apply Forall_app in Hall as [H1 H2].
    erewrite bind_Ok by (by apply stations_loop).
    rewrite IH by done. by rewrite omap_app, foldl_app, <- app_assoc.
Qed.

Lemma wlog_foldl_after_load (ps : list (string * Station)) : ∀ w,
  wlog (foldl after_load w ps) = wlog w ++ omap skip_warning ps.
Proof.
  induction ps as [|p ps IH]; intros w; cbn [foldl omap list_omap].
  - by rewrite app_nil_r.
  - rewrite IH. unfold after_load. cbn [wlog].
    destruct (skip_warning p); cbn [option_list]; by rewrite <- app_assoc.
Qed.

(** C8: load_data_traces goes through the mapped channels and, for each,
    through the stations (all stations for the first channel, then all for
    the second); the returned traces are in exactly this order, and a file
    that cannot be opened is skipped with a diagnostic and leaves the
    order of the other traces as it is. *)
Theorem load_data_traces_order (stations : list Station) (channels : list string)
    ref_channels w :
  ref_channels_of channels = Some ref_channels →
  Forall tolerant (channel_major ref_channels stations) →
  ∃ w',
    load_data_traces stations channels w
      = (Ok (omap loaded_trace (channel_major ref_channels stations)), w') ∧
    wlog w' = wlog w ++ omap skip_warning (channel_major ref_channels stations).
Proof.
  intros Hrc Htol. unfold load_data_traces.
  erewrite bind_Ok by (by rewrite channels_loop, Hrc).
  rewrite ref_channels_loop by done. eexists. split; [done|].
  apply wlog_foldl_after_load.
Qed.

(** C7: every requested channel code maps to one reference-channel code by
    the fixed closed table ('Z' to 'u', 'T' to 'r'); a requested code
    outside the table (such as 'X') raises the unsupported-channel error
    before any file is touched. *)
Theorem load_data_traces_unsupported_channel :
  (∀ cha rc, ref_channel_of cha = Ok rc ↔ (cha, rc) ∈ channel_table) ∧
  (∀ (stations : list Station) (channels : list string) cha w,
     cha ∈ channels → cha ≠ "Z" → cha ≠ "T" →
     load_data_traces stations channels w
       = (Raise (PyException "No data for this channel!"), w)).
Proof.
  split.
  - intros cha rc. unfold ref_channel_of, channel_table.
    rewrite !elem_of_cons, elem_of_nil.
    destruct (decide (cha = "Z")) as [->|HZ].
    { split; [intros [= <-]; by left|]. intros [[= <-]|[[=]|[]]]. done. }
    destruct (decide (cha = "T")) as [->|HT].
    { split; [intros [= <-]; by right; left|]. intros [[=]|[[= <-]|[]]]. done. }
    split; [done|]. intros [[= -> _]|[[= -> _]|[]]]; done.
  - intros stations channels cha w Hin HZ HT. unfold load_data_traces.
    erewrite bind_Raise; [done|].
    by rewrite channels_loop, (ref_channels_of_unsupported channels cha).
Qed.

End Traces_properties.

Lemma sample_wfs_tolerant :
  Forall (tolerant sample_wfs "d/") (channel_major ["u"; "r"] sample_stations).
Proof.
  set (pairs := channel_major _ _). vm_compute in pairs. subst pairs.
  repeat (apply Forall_cons_2;
          [intros Hopen;
           ((vm_compute in Hopen; discriminate) || (right; eexists _, _; reflexivity))|]).
  apply Forall_nil_2.
Qed.

Lemma load_data_traces_order_witness :
  ∃ w',
    load_data_traces sample_wfs "d/" sample_stations ["Z"; "T"] w0
      = (Ok [rescale (sample_trace "ANMO" "u" [1000000000; 3]%float);
             rescale (sample_trace "KDAK" "u" [2; (-4)]%float);
             rescale (sample_trace "KDAK" "r" [5]%float)], w') ∧
    wlog w' = [LogWarn "Unable to open file: reference-IU-ANMO-r"].
Proof.
  apply (load_data_traces_order sample_wfs "d/" sample_stations ["Z"; "T"] ["u"; "r"] w0).
  - reflexivity.
  - apply sample_wfs_tolerant.
Defined.

Lemma load_data_traces_unsupported_channel_witness :
  ref_channel_of "Z" = Ok "u" ∧
  load_data_traces sample_wfs "d/" sample_stations ["Z"; "X"] w0
    = (Raise (PyException "No data for this channel!"), w0).
Proof.
  destruct (load_data_traces_unsupported_channel sample_wfs "d/") as [Htable Hraise].
  split.
  - apply Htable. by left.
  - apply (Hraise sample_stations ["Z"; "X"] "X" w0); [by right; left|done|done].
Defined.


(** The constant of line 13 is the double nearest to 1e-9, and the product
    is the floating-point one: 3 nm load as 3.0000000000000004e-09 m, which
    is not the double nearest to 3e-9. *)
Example m_value :
  m = (1 / 1000000000)%float ∧
  (3 * m)%float = 0x1.9c511dc3a41ep-29%float ∧
  PrimFloat.eqb (3 * m) (3 / 1000000000) = false.
Proof. repeat split; reflexivity. Qed.

(** ** More on the interferogram loader *)

Section SAR_more.
Variable utm_to_lonlat : list float → list float → Z → list float * list float.
Variable fs : matfs.

#[local] Abbreviation load_matfile := (load_matfile fs).
#[local] Abbreviation make_diffg := (make_diffg utm_to_lonlat).
#[local] Abbreviation sar_body := (sar_body utm_to_lonlat fs).
#[local] Abbreviation sar_loop := (sar_loop utm_to_lonlat fs).
#[local] Abbreviation load_SAR_data := (load_SAR_data utm_to_lonlat fs).
#[local] Abbreviation describes := (describes utm_to_lonlat).
#[local] Abbreviation loads := (loads fs).
#[local] Abbreviation absent_or_loads := (absent_or_loads fs).
#[local] Abbreviation diagnosed := (diagnosed fs).

Lemma sar_loop_S datadir fuel i (names : list string) acc w :
  sar_loop datadir (S fuel) i names acc w
  = match names !! i with
    | None => Some (Ok acc, names, w)
    | Some k =>
        match sar_body datadir k w with
        | (Raise e, w') => Some (Raise e, names, w')
        | (Ok None, w') => sar_loop datadir fuel (S i) names acc w'
        | (Ok (Some d), w') =>
            match names with
            | [] => Some (Raise IndexError, names, w')
            | _ :: names' => sar_loop datadir fuel (S i) names' (acc ++ [d]) w'
            end
        end
    end.
Proof. done. Qed.

(** The records of a result follow the order of the list, and there are
    at most half as many (rounded up) as the loop had positions left. *)
Lemma sar_loop_order datadir fuel : ∀ i (names : list string) acc w ds names' w',
  sar_loop datadir fuel i names acc w = Some (Ok ds, names', w') →
  ∃ new, ds = acc ++ new ∧
         (ifg_name <$> new) `sublist_of` drop i names ∧
         (2 * length new ≤ length names - i + 1)%nat.
Proof.
  induction fuel as [|fuel IH]; intros i names acc w ds names' w' Hrun; [done|].
  rewrite sar_loop_S in Hrun.
  destruct (names !! i) as [k|] eqn:Hk.
  - pose proof (lookup_lt_Some _ _ _ Hk) as Hi.
    destruct (sar_body datadir k w) as [[[d|]|e] w1] eqn:Hb; [| |done].
    + destruct names as [|x names0]; [done|].
      apply IH in Hrun as (new & -> & Hsub & Hlen).
      apply sar_body_Some_inv in Hb as (data & covs & _ & Hd & _).
      assert (ifg_name d = k) as Hn by apply Hd.
      exists (d :: new). split; [by rewrite <- app_assoc|]. split.
      * rewrite (drop_S _ _ _ Hk), fmap_cons, Hn. apply sublist_skip.
        etrans; [exact Hsub|]. cbn [drop].
        replace (drop (S i) names0) with (drop 1 (drop i names0))
          by (rewrite drop_drop; f_equal; lia).
        apply sublist_drop.
      * cbn [length] in *. lia.
    + apply IH in Hrun as (new & -> & Hsub & Hlen).
      exists new. split; [done|]. split; [|lia].
      rewrite (drop_S _ _ _ Hk). by apply sublist_cons.
  - injection Hrun as <- <- <-. exists []. rewrite app_nil_r.
    split; [done|]. split; [apply sublist_nil_l|simpl; lia].
Qed.

(** X1: whatever the directory holds, a call that returns has built at most
    ceil(n/2) observations for a list of n identifiers. *)
Theorem load_SAR_data_at_most_half datadir (names : list string) w ds names' w' :
  load_SAR_data datadir names w = Some (Ok ds, names', w') →
  (2 * length ds ≤ length names + 1)%nat.
Proof.
  intros Hrun. apply sar_loop_order in Hrun as (new & -> & _ & Hlen).
  simpl in *. lia.
Qed.

(** X2: the observations come in the order of the list and no position of
    the list gives two of them: their names are a sublist of the
    identifiers, so with distinct identifiers no name occurs twice. *)
Theorem load_SAR_data_keeps_order datadir (names : list string) w ds names' w' :
  load_SAR_data datadir names w = Some (Ok ds, names', w') →
  (ifg_name <$> ds) `sublist_of` names ∧
  (NoDup names → NoDup (ifg_name <$> ds)).
Proof.
  intros Hrun. apply sar_loop_order in Hrun as (new & -> & Hsub & _).
  simpl in *. rewrite drop_0 in Hsub. split; [done|].
  intros Hnd. by eapply sublist_NoDup.
Qed.

(** The loop over identifiers none of which has both files. *)
Lemma sar_loop_none_load datadir fuel : ∀ i (names : list string) acc w,
  Forall (λ k, absent_or_loads (quad_path datadir k) ∧
               absent_or_loads (cov_path datadir k) ∧
               ¬ ∃ data covs, loads datadir k data covs) names →
  length names - i < fuel →
  sar_loop datadir fuel i names acc w
    = Some (Ok acc, names, foldl (λ w k, diagnosed datadir k w) w (drop i names)).
Proof.
  induction fuel as [|fuel IH]; intros i names acc w Hall Hf; [lia|].
  rewrite sar_loop_S. destruct (names !! i) as [k|] eqn:Hk.
  - pose proof (lookup_lt_Some _ _ _ Hk) as Hi.
    assert (absent_or_loads (quad_path datadir k) ∧
            absent_or_loads (cov_path datadir k) ∧
            ¬ ∃ data covs, loads datadir k data covs) as (Hq & Hc & Hno)
      by (eapply Forall_forall in Hall; [exact Hall|by eapply list_elem_of_lookup_2]).
    rewrite sar_body_absent by done. rewrite IH by (done || lia).
    by rewrite (drop_S _ _ _ Hk).
  - apply lookup_ge_None in Hk. by rewrite drop_ge.
Qed.

(** X3: when no identifier of the list has both of its files (and reads
    fail by IOError only), the call returns no observation and leaves the
    list as it was, yet it has read both files of every identifier, in
    order, and logged the diagnostics of each. *)
Theorem load_SAR_data_none_load datadir (names : list string) w :
  Forall (λ k, absent_or_loads (quad_path datadir k) ∧
               absent_or_loads (cov_path datadir k) ∧
               ¬ ∃ data covs, loads datadir k data covs) names →
  load_SAR_data datadir names w
    = Some (Ok [], names, foldl (λ w k, diagnosed datadir k w) w names) ∧
  wreads (foldl (λ w k, diagnosed datadir k w) w names)
    = wreads w ++ flat_map (λ k, [quad_path datadir k; cov_path datadir k]) names ∧
  wlog (foldl (λ w k, diagnosed datadir k w) w names)
    = wlog w ++ flat_map (λ k, missing_warning fs (quad_path datadir k)
                               ++ missing_warning fs (cov_path datadir k)
                               ++ [LogInfo ("File " +:+ datadir +:+ " was no SAR data?!")])
                         names.
Proof.
  intros Hall. split; [|split].
  - unfold load_SAR_data. rewrite sar_loop_none_load by (done || lia).
    by rewrite drop_0.
  - clear Hall. revert w. induction names as [|k names IH]; intros w; cbn [foldl flat_map].
    + by rewrite app_nil_r.
    + rewrite IH. cbn [diagnosed wreads]. by rewrite <- app_assoc.
  - clear Hall. revert w. induction names as [|k names IH]; intros w; cbn [foldl flat_map].
    + by rewrite app_nil_r.
    + rewrite IH. cbn [diagnosed wlog]. by rewrite <- !app_assoc.
Qed.

Lemma sar_body_no_cfoc datadir k w data covs :
  loads datadir k data covs → data !! "cfoc" = None →
  sar_body datadir k w = (Raise (KeyError "cfoc"), read_both datadir k w).
Proof.
  intros [Hq Hc] Hno. unfold sar_body.
  erewrite bind_Ok by (by apply load_matfile_Ok).
  erewrite bind_Ok by (by apply load_matfile_Ok).
  unfold bind, lift, make_diffg, getitem. rewrite Hno.
  unfold read_both. simpl. by rewrite <- app_assoc.
Qed.

Lemma load_matfile_reads path w :
  wreads (load_matfile path w).2 = wreads w ++ [path].
Proof.
  unfold load_matfile, try_IOError, bind, touch, lift, ret, logger.
  destruct (fs path) as [data|e]; [done|]. by destruct e.
Qed.

Lemma sar_body_reads datadir k w :
  ∃ rs, wreads (sar_body datadir k w).2 = wreads w ++ rs ∧
        ∀ p, p ∈ rs → p = quad_path datadir k ∨ p = cov_path datadir k.
Proof.
  unfold sar_body, bind at 1.
  pose proof (load_matfile_reads (quad_path datadir k) w) as Hq.
  destruct (load_matfile (quad_path datadir k) w) as [[data|e] w1]; cbn [snd] in Hq.
  - unfold bind at 1.
    pose proof (load_matfile_reads (cov_path datadir k) w1) as Hc.
    destruct (load_matfile (cov_path datadir k) w1) as [[covs|e] w2]; cbn [snd] in Hc.
    + exists [quad_path datadir k; cov_path datadir k]. split.
      * rewrite Hq in Hc. rewrite <- app_assoc in Hc.
        destruct data as [data|], covs as [covs|];
          unfold bind, lift, ret, logger; try done.
        by destruct (make_diffg k data covs).
      * intros p. rewrite elem_of_cons, list_elem_of_singleton. tauto.
    + exists [quad_path datadir k; cov_path datadir k]. cbn [snd]. split.
      * by rewrite Hc, Hq, <- app_assoc.
      * intros p. rewrite elem_of_cons, list_elem_of_singleton. tauto.
  - exists [quad_path datadir k]. cbn [snd]. split; [done|].
    intros p. rewrite list_elem_of_singleton. tauto.
Qed.

Lemma sar_loop_reads datadir fuel : ∀ i (names : list string) acc w r names' w',
  sar_loop datadir fuel i names acc w = Some (r, names', w') →
  ∃ rs, wreads w' = wreads w ++ rs ∧
        ∀ p, p ∈ rs → ∃ k, k ∈ names ∧
                           (p = quad_path datadir k ∨ p = cov_path datadir k).
Proof.
  induction fuel as [|fuel IH]; intros i names acc w r names' w' Hrun; [done|].
  rewrite sar_loop_S in Hrun. destruct (names !! i) as [k|] eqn:Hk.
  - assert (k ∈ names) as Hin by (by eapply list_elem_of_lookup_2).
    destruct (sar_body_reads datadir k w) as (rs & Hrs & Hp).
    destruct (sar_body datadir k w) as [[[d|]|e] w1] eqn:Hb; cbn [snd] in Hrs.
    + destruct names as [|x names0]; [done|].
      apply IH in Hrun as (rs' & Hrs' & Hp').
      exists (rs ++ rs'). split; [by rewrite Hrs', Hrs, <- app_assoc|].
      intros p [H|H]%elem_of_app; [by exists k; split; [|apply Hp]|].
      destruct (Hp' p H) as (k' & Hk' & ?). exists k'. split; [by right|done].
    + apply IH in Hrun as (rs' & Hrs' & Hp').
      exists (rs ++ rs'). split; [by rewrite Hrs', Hrs, <- app_assoc|].
      intros p [H|H]%elem_of_app; [by exists k; split; [|apply Hp]|by apply Hp'].
    + injection Hrun as <- <- <-. exists rs. split; [done|].
      intros p H. exists k. split; [done|by apply Hp].
  - injection Hrun as <- <- <-. exists []. split; [by rewrite app_nil_r|].
    intros p H. by apply elem_of_nil in H.
Qed.

(** X5: whatever happens, the call reads no file but the two companion
    files of identifiers of the list it was given. *)
Theorem load_SAR_data_reads_only_listed datadir (names : list string) w r names' w' :
  load_SAR_data datadir names w = Some (r, names', w') →
  ∃ rs, wreads w' = wreads w ++ rs ∧
        ∀ p, p ∈ rs → ∃ k, k ∈ names ∧
                           (p = quad_path datadir k ∨ p = cov_path datadir k).
Proof. apply sar_loop_reads. Qed.

(** X4: a data file that loads but holds no 'cfoc' variable is not skipped:
    the lookup raises KeyError, which ends the whole call.  Here it is the
    file of the third identifier, after the first one has loaded: the
    observation already built is lost with the exception, while the
    caller's list has lost its first element all the same. *)
Theorem load_SAR_data_missing_field datadir k1 k2 k3 (rest : list string) w
    data1 covs1 d1 data3 covs3 :
  loads datadir k1 data1 covs1 → describes k1 data1 covs1 d1 →
  loads datadir k3 data3 covs3 → data3 !! "cfoc" = None →
  load_SAR_data datadir (k1 :: k2 :: k3 :: rest) w
    = Some (Raise (KeyError "cfoc"), k2 :: k3 :: rest,
            read_both datadir k3 (read_both datadir k1 w)).
Proof.
  intros Hl1 Hd1 Hl3 Hno. unfold load_SAR_data. cbn [length].
  rewrite sar_loop_S. cbn [lookup list_lookup].
  rewrite (sar_body_loads utm_to_lonlat fs datadir k1 w data1 covs1 d1) by done.
  rewrite sar_loop_S. cbn [lookup list_lookup].
  by rewrite (sar_body_no_cfoc datadir k3 _ data3 covs3).
Qed.
End SAR_more.

(** ** More on the station-velocity table loader *)

Section GPS_more.
Variable tfs : txtfs.

#[local] Abbreviation load_ascii_gps := (load_ascii_gps tfs).
#[local] Abbreviation load_and_blacklist_GPS := (load_and_blacklist_GPS tfs).

(** X6: the table loader has no handler: an exception of either loadtxt
    call (a missing file included) ends load_ascii_gps, and with it
    load_and_blacklist_GPS, with that exception; nothing is logged. *)
Theorem load_ascii_gps_reader_error filedir filename w e :
  loadtxt_str tfs (path_join filedir filename) = Raise e ∨
  (∃ names, loadtxt_str tfs (path_join filedir filename) = Ok names ∧
            loadtxt_float tfs (path_join filedir filename) = Raise e) →
  ∃ w', load_ascii_gps filedir filename w = (Raise e, w') ∧
        (∀ blacklist, load_and_blacklist_GPS filedir filename blacklist w = (Raise e, w')) ∧
        wlog w' = wlog w.
Proof.
  intros [Hn|(names & Hn & Hd)].
  - exists (World (wlog w) (wreads w ++ [path_join filedir filename])).
    assert (load_ascii_gps filedir filename w
            = (Raise e, World (wlog w) (wreads w ++ [path_join filedir filename]))) as Hrun
      by (unfold load_ascii_gps, bind, touch, lift; simpl; by rewrite Hn).
    split; [done|]. split; [|done].
    intros blacklist. unfold load_and_blacklist_GPS. by erewrite bind_Raise.
  - exists (World (wlog w) ((wreads w ++ [path_join filedir filename])
                            ++ [path_join filedir filename])).
    assert (load_ascii_gps filedir filename w
            = (Raise e, World (wlog w) ((wreads w ++ [path_join filedir filename])
                                        ++ [path_join filedir filename]))) as Hrun
      by (unfold load_ascii_gps, bind, touch, lift; simpl; by rewrite Hn, Hd).
    split; [done|]. split; [|done].
    intros blacklist. unfold load_and_blacklist_GPS. by erewrite bind_Raise.
Qed.

Lemma remove_stations_empty (blacklist : list string) :
  stations (remove_stations (mkGPSDataset ∅) blacklist) = ∅.
Proof.
  apply map_eq. intros n. rewrite remove_stations_lookup, lookup_empty.
  by case_decide.
Qed.

(** X7: a table without rows loads as an empty dataset, and
    load_and_blacklist_GPS then raises IndexError whatever the blacklist
    is, the empty one included. *)
Theorem load_and_blacklist_GPS_empty_table datadir filename (blacklist : list string) w :
  loadtxt_str tfs (path_join datadir filename) = Ok [] →
  loadtxt_float tfs (path_join datadir filename) = Ok [] →
  ∃ w', load_ascii_gps datadir filename w = (Ok (mkGPSDataset ∅), w') ∧
        load_and_blacklist_GPS datadir filename blacklist w = (Raise IndexError, w').
Proof.
  intros Hn Hd. eexists. split.
  - by rewrite (load_ascii_gps_reads tfs datadir filename [] [] w Hn Hd).
  - unfold load_and_blacklist_GPS.
    erewrite bind_Ok by (by rewrite (load_ascii_gps_reads tfs datadir filename [] [] w Hn Hd)).
    unfold bind, lift, index, values.
    by rewrite remove_stations_empty, map_to_list_empty.
Qed.

Lemma station_of_row_find n row c :
  c ∈ ["E"; "N"; "U"] →
  ∃ comp, find_component (components (station_of_row n row)) c = Some comp ∧
          comp_name comp = c ∧ (c, comp) ∈ components (station_of_row n row).
Proof.
  intros Hc.
  repeat (apply elem_of_cons in Hc as [->|Hc];
          [eexists; split; [reflexivity|]; split; [reflexivity|];
           unfold station_of_row; cbn [components];
           rewrite !elem_of_cons; tauto|]).
  by apply elem_of_nil in Hc.
Qed.

Lemma omap_pairs_fst {A B} (f : A → option B) (l : list A) :
  (∀ x, x ∈ l → is_Some (f x)) →
  (omap (λ x, (λ y, (x, y)) <$> f x) l).*1 = l.
Proof.
  induction l as [|x l IH]; intros Hall; [done|]. cbn [omap list_omap].
  destruct (Hall x) as [y Hy]; [by left|]. rewrite Hy. cbn [fmap option_fmap option_map].
  cbn [fmap list_fmap fst]. f_equal. apply IH. intros z Hz. apply Hall. by right.
Qed.

End GPS_more.

(** ** More on the waveform trace loader *)

Lemma ref_channels_of_length (channels : list string) : ∀ rcs,
  ref_channels_of channels = Some rcs →
  length rcs = length channels ∧ ∀ rc, rc ∈ rcs → rc ∈ ["u"; "r"].
Proof.
  induction channels as [|cha rest IH]; intros rcs H; cbn [ref_channels_of] in H.
  - injection H as <-. split; [done|]. intros rc Hrc. by apply elem_of_nil in Hrc.
  - destruct (table_ref channel_table cha) as [rc0|] eqn:Ht; [|done].
    destruct (ref_channels_of rest) as [rcs0|]; [|done]. injection H as <-.
    destruct (IH rcs0 eq_refl) as [Hlen Hin]. split; [simpl; by rewrite Hlen|].
    intros rc [->|Hrc]%elem_of_cons; [|by apply Hin].
    unfold channel_table, table_ref in Ht.
    repeat case_decide; simplify_eq; rewrite !elem_of_cons; tauto.
Qed.

Lemma ref_channels_of_app (c1 c2 : list string) r1 r2 :
  ref_channels_of c1 = Some r1 → ref_channels_of c2 = Some r2 →
  ref_channels_of (c1 ++ c2) = Some (r1 ++ r2).
Proof.
  revert r1. induction c1 as [|cha c1 IH]; intros r1 H1 H2; cbn [ref_channels_of app] in *.
  - by injection H1 as <-.
  - destruct (table_ref channel_table cha) as [rc0|]; [|done].
    destruct (ref_channels_of c1) as [rcs0|]; [|done]. injection H1 as <-.
    by rewrite (IH rcs0 eq_refl H2).
Qed.

Lemma channel_major_app {A B} (r1 r2 : list A) (sts : list B) :
  channel_major (r1 ++ r2) sts = channel_major r1 sts ++ channel_major r2 sts.
Proof. unfold channel_major. apply flat_map_app. Qed.

Lemma channel_major_length {A B} (rcs : list A) (sts : list B) :
  length (channel_major rcs sts) = length rcs * length sts.
Proof.
  induction rcs as [|rc rcs IH]; [done|].
  rewrite channel_major_cons, length_app, length_fmap, IH. simpl. lia.
Qed.

(** A loop whose passes add at most [c] elements adds at most [c] per
    element of the list. *)
Lemma for_in_length {A B} (l : list A) (body : A → list B → M (list B)) (c : nat) :
  (∀ x s w s' w', body x s w = (Ok s', w') → (length s' ≤ length s + c)%nat) →
  ∀ s w s' w', for_in l body s w = (Ok s', w') →
    (length s' ≤ length s + c * length l)%nat.
Proof.
  intros Hbody. induction l as [|x l IH]; intros s w s' w' Hrun; simpl in Hrun.
  - unfold ret in Hrun. injection Hrun as <- <-. lia.
  - unfold bind in Hrun. destruct (body x s w) as [[s1|e] w1] eqn:Hb; [|done].
    apply Hbody in Hb. apply IH in Hrun. simpl. lia.
Qed.

Lemma reads_within_refl Good w : reads_within Good w w.
Proof.
  exists []. split; [by rewrite app_nil_r|]. intros p Hp. by apply elem_of_nil in Hp.
Qed.

Lemma reads_within_trans Good w1 w2 w3 :
  reads_within Good w1 w2 → reads_within Good w2 w3 → reads_within Good w1 w3.
Proof.
  intros (r1 & H1 & G1) (r2 & H2 & G2). exists (r1 ++ r2).
  split; [by rewrite H2, H1, <- app_assoc|].
  intros p [Hp|Hp]%elem_of_app; [by apply G1|by apply G2].
Qed.

Lemma for_in_reads_within {A S} Good (l : list A) (body : A → S → M S) :
  (∀ x s w, x ∈ l → reads_within Good w (body x s w).2) →
  ∀ s w, reads_within Good w (for_in l body s w).2.
Proof.
  induction l as [|x l IH]; intros Hbody s w; simpl.
  - apply reads_within_refl.
  - unfold bind. pose proof (Hbody x s w (list_elem_of_here _ _)) as Hx.
    destruct (body x s w) as [[s1|e] w1]; cbn [snd] in *; [|done].
    eapply reads_within_trans; [exact Hx|]. apply IH.
    intros y t u Hy. apply Hbody. by right.
Qed.

Section Traces_more.
Variable wfs : wavefs.
Variable datadir : string.

#[local] Abbreviation load_one := (load_one wfs datadir).
#[local] Abbreviation load_data_traces := (load_data_traces wfs datadir).
#[local] Abbreviation loaded_trace := (loaded_trace wfs datadir).
#[local] Abbreviation skip_warning := (skip_warning wfs datadir).
#[local] Abbreviation after_load := (after_load wfs datadir).
#[local] Abbreviation tolerant := (tolerant wfs datadir).

(** The call on supported channels and tolerant files. *)
Lemma load_data_traces_run (stations : list Station) (channels : list string) rcs w :
  ref_channels_of channels = Some rcs →
  Forall tolerant (channel_major rcs stations) →
  load_data_traces stations channels w
    = (Ok (omap loaded_trace (channel_major rcs stations)),
       foldl after_load w (channel_major rcs stations)).
Proof.
  intros Hrc Htol. unfold load_data_traces.
  erewrite bind_Ok by (by rewrite channels_loop, Hrc).
  by rewrite ref_channels_loop.
Qed.

(** X9: a call that returns gives at most one trace per pair of a
    requested channel and a station, whatever the files hold. *)
Theorem load_data_traces_length_bound (stations : list Station)
    (channels : list string) w trcs w' :
  load_data_traces stations channels w = (Ok trcs, w') →
  (length trcs ≤ length channels * length stations)%nat.
Proof.
  unfold load_data_traces, bind at 1. rewrite channels_loop.
  destruct (ref_channels_of channels) as [rcs|] eqn:Hrc; [|done].
  intros Hrun. apply ref_channels_of_length in Hrc as [<- _].
  eapply (for_in_length rcs _ (length stations)) in Hrun; [simpl in Hrun; lia|].
  intros rc s u s' u' Hinner.
  eapply (for_in_length stations _ 1) in Hinner; [lia|].
  intros st t v t' v' Hone.
  apply load_one_inv in Hone as [->|(raw & rest & _ & ->)]; [lia|].
  rewrite length_app. simpl. lia.
Qed.

(** X10: only IOError is tolerated.  When the file of the first station
    and first channel opens but holds no segment, taking its first segment
    raises IndexError, and when reading it raises an exception of another
    class than IOError, that exception is not caught: either way the whole
    call ends with the exception and returns no trace. *)
Theorem load_data_traces_fatal (st : Station) (sts : list Station)
    (channels : list string) rc rcs w :
  ref_channels_of channels = Some (rc :: rcs) →
  can_open wfs (tracepath_of datadir st rc) = true →
  let w' := World (wlog w) (wreads w ++ [tracepath_of datadir st rc;
                                        tracepath_of datadir st rc]) in
  (io_load wfs (tracepath_of datadir st rc) data_format = Ok [] →
   load_data_traces (st :: sts) channels w = (Raise IndexError, w')) ∧
  (∀ e, io_load wfs (tracepath_of datadir st rc) data_format = Raise e →
        e ≠ IOError →
        load_data_traces (st :: sts) channels w = (Raise e, w')).
Proof.
  intros Hrc Hopen w'.
  assert (∀ e,
    (io_load wfs (tracepath_of datadir st rc) data_format = Ok [] ∧ e = IndexError) ∨
    (io_load wfs (tracepath_of datadir st rc) data_format = Raise e ∧ e ≠ IOError) →
    load_one rc st [] w = (Raise e, w')) as Hone.
  { intros e He. unfold load_one, try_IOError, py_open, bind, touch, lift, raise, ret, index.
    cbn [wlog wreads]. rewrite Hopen. cbn [wlog wreads].
    unfold w'. rewrite <- app_assoc.
    destruct He as [[-> ->]|[-> Hne]]; [done|]. by destruct e. }
  assert (∀ e, load_one rc st [] w = (Raise e, w') →
               load_data_traces (st :: sts) channels w = (Raise e, w')) as Hcall.
  { intros e He. unfold load_data_traces.
    erewrite bind_Ok by (by rewrite channels_loop, Hrc).
    cbn [for_in app]. erewrite bind_Raise; [done|]. by erewrite bind_Raise. }
  split.
  - intros Hio. apply Hcall, Hone. by left.
  - intros e Hio Hne. apply Hcall, Hone. by right.
Qed.

(** X11: requesting the channels of two lists at once gives the traces of
    the first request followed by those of the second (made after it):
    for tolerant files the loader is a homomorphism of channel lists. *)
Theorem load_data_traces_app (stations : list Station) (c1 c2 : list string) r1 r2 w :
  ref_channels_of c1 = Some r1 → ref_channels_of c2 = Some r2 →
  Forall tolerant (channel_major (r1 ++ r2) stations) →
  ∃ t1 w1 t2 w2,
    load_data_traces stations c1 w = (Ok t1, w1) ∧
    load_data_traces stations c2 w1 = (Ok t2, w2) ∧
    load_data_traces stations (c1 ++ c2) w = (Ok (t1 ++ t2), w2).
Proof.
  intros H1 H2 Htol.
  pose proof Htol as Htol'. rewrite channel_major_app in Htol'.
  apply Forall_app in Htol' as [Ht1 Ht2].
  eexists _, _, _, _. split; [by apply load_data_traces_run|].
  split; [by apply load_data_traces_run|].
  rewrite (load_data_traces_run stations (c1 ++ c2) (r1 ++ r2))
    by (done || by apply ref_channels_of_app).
  by rewrite channel_major_app, omap_app, foldl_app.
Qed.

Lemma string_app_assoc_r (a b c : string) : (a +:+ b) +:+ c = a +:+ (b +:+ c).
Proof.
  induction a as [|x a IH]; [done|].
  change (String x ((a +:+ b) +:+ c) = String x (a +:+ (b +:+ c))). by rewrite IH.
Qed.

(** The file name of lines 150-153, written out. *)
Lemma tracepath_of_convention st rc :
  tracepath_of datadir st rc
    = datadir +:+ "reference-" +:+ network st +:+ "-" +:+ station st
      +:+ "-" +:+ rc +:+ ".mseed".
Proof.
  unfold tracepath_of, trace_name_of, trc_name_divider, data_format.
  cbn [String.concat]. f_equal.
  change ("reference" +:+ "-" +:+ network st +:+ "-" +:+ station st +:+ "-" +:+ rc)
    with ("reference-" +:+ network st +:+ "-" +:+ station st +:+ "-" +:+ rc).
  by rewrite !string_app_assoc_r.
Qed.

Lemma load_one_reads rc st acc w :
  reads_within (λ p, p = tracepath_of datadir st rc) w (load_one rc st acc w).2.
Proof.
  unfold load_one, try_IOError, py_open, bind, touch, lift, raise, ret, logger, index.
  cbn [wlog wreads].
  destruct (can_open wfs (tracepath_of datadir st rc)); cbn [wlog wreads].
  - exists [tracepath_of datadir st rc; tracepath_of datadir st rc]. split.
    + destruct (io_load wfs (tracepath_of datadir st rc) data_format) as [[|raw rest]|e];
        cbn [lookup list_lookup snd wreads]; try (by rewrite <- app_assoc).
      destruct e; simpl; by rewrite <- app_assoc.
    + intros p. rewrite elem_of_cons, list_elem_of_singleton. tauto.
  - exists [tracepath_of datadir st rc]. split; [done|].
    intros p. by rewrite list_elem_of_singleton.
Qed.

(** X12: whatever the outcome, the call touches no file but
    <datadir>reference-<network>-<station>-<u or r>.mseed of stations it
    was given. *)
Theorem load_data_traces_reads_only (stations : list Station) (channels : list string) w :
  reads_within
    (λ p, ∃ st rc, st ∈ stations ∧ rc ∈ ["u"; "r"] ∧
                   p = datadir +:+ "reference-" +:+ network st +:+ "-" +:+ station st
                       +:+ "-" +:+ rc +:+ ".mseed")
    w (load_data_traces stations channels w).2.
Proof.
  unfold load_data_traces, bind at 1. rewrite channels_loop.
  destruct (ref_channels_of channels) as [rcs|] eqn:Hrc; [|apply reads_within_refl].
  apply ref_channels_of_length in Hrc as [_ Hin].
  apply for_in_reads_within. intros rc s u Hrc.
  apply for_in_reads_within. intros st t v Hst.
  destruct (load_one_reads rc st t v) as (rs & Hrs & Hp).
  exists rs. split; [done|]. intros p Hpin. exists st, rc.
  split; [done|]. split; [by apply Hin|].
  rewrite (Hp p Hpin). apply tracepath_of_convention.
Qed.

Lemma foldl_after_load_closed (ps : list (string * Station)) : ∀ w,
  Forall (λ p, can_open wfs (tracepath_of datadir p.2 p.1) = false) ps →
  omap loaded_trace ps = [] ∧
  foldl after_load w ps
    = World (wlog w ++ ((λ p, LogWarn ("Unable to open file: " +:+ trace_name_of p.2 p.1))
                          <$> ps))
            (wreads w ++ ((λ p, tracepath_of datadir p.2 p.1) <$> ps)).
Proof.
  induction ps as [|p ps IH]; intros w Hall; cbn [foldl omap list_omap fmap list_fmap].
  - rewrite !app_nil_r. by destruct w.
  - inversion Hall as [|? ? Hp Hall']; subst.
    assert (loaded_trace p = None) as Hl by (unfold loaded_trace; by rewrite Hp).
    rewrite Hl. destruct (IH (after_load w p) Hall') as [-> ->]. split; [done|].
    unfold after_load, skip_warning. rewrite Hl, Hp. cbn [option_list wlog wreads].
    by rewrite <- !app_assoc.
Qed.

(** X13: when none of the files can be opened the call is no error: it
    returns no trace, and it has tried every file once and logged one
    warning per pair, both in channel-major, station-minor order. *)
Theorem load_data_traces_none_opens (stations : list Station) (channels : list string)
    rcs w :
  ref_channels_of channels = Some rcs →
  Forall (λ p, can_open wfs (tracepath_of datadir p.2 p.1) = false)
         (channel_major rcs stations) →
  load_data_traces stations channels w
    = (Ok [],
       World (wlog w ++ ((λ p, LogWarn ("Unable to open file: " +:+ trace_name_of p.2 p.1))
                           <$> channel_major rcs stations))
             (wreads w ++ ((λ p, tracepath_of datadir p.2 p.1)
                             <$> channel_major rcs stations))).
Proof.
  intros Hrc Hall.
  rewrite (load_data_traces_run stations channels rcs) by
    (done || (eapply Forall_impl; [exact Hall|]; intros p Hp; unfold tolerant;
              rewrite Hp; done)).
  by destruct (foldl_after_load_closed (channel_major rcs stations) w Hall) as [-> ->].
Qed.

Lemma foldl_after_load_open (ps : list (string * Station)) : ∀ w,
  Forall (λ p, can_open wfs (tracepath_of datadir p.2 p.1) = true ∧
               ∃ tr rest, io_load wfs (tracepath_of datadir p.2 p.1) data_format
                          = Ok (tr :: rest)) ps →
  length (omap loaded_trace ps) = length ps ∧
  wlog (foldl after_load w ps) = wlog w.
Proof.
  induction ps as [|p ps IH]; intros w Hall; [done|].
  inversion Hall as [|? ? [Hp (tr & rest & Hio)] Hall']; subst.
  assert (loaded_trace p = Some (rescale tr)) as Hl
    by (unfold loaded_trace; by rewrite Hp, Hio).
  cbn [omap list_omap foldl]. rewrite Hl.
  destruct (IH (after_load w p) Hall') as [Hlen Hlog]. split.
  - cbn [length]. by rewrite Hlen.
  - rewrite Hlog. unfold after_load, skip_warning. rewrite Hl.
    cbn [option_list wlog]. by rewrite app_nil_r.
Qed.

(** X14: when every file opens and holds at least one segment, the call
    returns exactly one trace per pair of a requested channel and a
    station, and logs nothing. *)
Theorem load_data_traces_all_load (stations : list Station) (channels : list string)
    rcs w :
  ref_channels_of channels = Some rcs →
  Forall (λ p, can_open wfs (tracepath_of datadir p.2 p.1) = true ∧
               ∃ tr rest, io_load wfs (tracepath_of datadir p.2 p.1) data_format
                          = Ok (tr :: rest))
         (channel_major rcs stations) →
  ∃ trcs w',
    load_data_traces stations channels w = (Ok trcs, w') ∧
    length trcs = (length channels * length stations)%nat ∧
    wlog w' = wlog w.
Proof.
  intros Hrc Hall.
  rewrite (load_data_traces_run stations channels rcs) by
    (done || (eapply Forall_impl; [exact Hall|]; intros p [_ Hp] _; by right)).
  eexists _, _. split; [done|].
  destruct (foldl_after_load_open (channel_major rcs stations) w Hall) as [Hlen Hlog].
  split; [|done].
  apply ref_channels_of_length in Hrc as [<- _].
  by rewrite Hlen, channel_major_length.
Qed.
End Traces_more.

(** ** Instances of the further properties *)

Lemma load_SAR_data_at_most_half_witness :
  (2 * length [sample_record "A"; sample_record "C"] ≤ length ["A"; "B"; "C"] + 1)%nat.
Proof.
  apply (load_SAR_data_at_most_half sample_utm fs_all "d/" ["A"; "B"; "C"] w0
           [sample_record "A"; sample_record "C"] ["C"]
           (read_both "d/" "C" (read_both "d/" "A" w0))).
  reflexivity.
Defined.

Lemma load_SAR_data_keeps_order_witness :
  (ifg_name <$> [sample_record "A"; sample_record "C"]) `sublist_of` ["A"; "B"; "C"] ∧
  (NoDup ["A"; "B"; "C"] → NoDup (ifg_name <$> [sample_record "A"; sample_record "C"])).
Proof.
  apply (load_SAR_data_keeps_order sample_utm fs_all "d/" ["A"; "B"; "C"] w0
           [sample_record "A"; sample_record "C"] ["C"]
           (read_both "d/" "C" (read_both "d/" "A" w0))).
  reflexivity.
Defined.

Lemma load_SAR_data_none_load_witness :
  load_SAR_data sample_utm fs_none "d/" ["A"; "B"] w0
    = Some (Ok [], ["A"; "B"],
            foldl (λ w k, diagnosed fs_none "d/" k w) w0 ["A"; "B"]) ∧
  wreads (foldl (λ w k, diagnosed fs_none "d/" k w) w0 ["A"; "B"])
    = ["d/quad_A.mat"; "d/CovMatrix_A.mat"; "d/quad_B.mat"; "d/CovMatrix_B.mat"] ∧
  wlog (foldl (λ w k, diagnosed fs_none "d/" k w) w0 ["A"; "B"])
    = [LogWarn "File d/quad_A.mat does not exist.";
       LogWarn "File d/CovMatrix_A.mat does not exist.";
       LogInfo "File d/ was no SAR data?!";
       LogWarn "File d/quad_B.mat does not exist.";
       LogWarn "File d/CovMatrix_B.mat does not exist.";
       LogInfo "File d/ was no SAR data?!"].
Proof.
  apply (load_SAR_data_none_load sample_utm fs_none "d/" ["A"; "B"] w0).
  apply Forall_forall. intros k _. split; [|split].
  - intros e [= <-]. done.
  - intros e [= <-]. done.
  - intros (data & covs & [=] & _).
Defined.

Lemma load_SAR_data_reads_only_listed_witness :
  ∃ rs, wreads (World [] ["d/quad_A.mat"; "d/CovMatrix_A.mat"]) = wreads w0 ++ rs ∧
        ∀ p, p ∈ rs → ∃ k, k ∈ ["A"; "B"] ∧
                           (p = quad_path "d/" k ∨ p = cov_path "d/" k).
Proof.
  apply (load_SAR_data_reads_only_listed sample_utm fs_AB "d/" ["A"; "B"] w0
           (Ok [sample_record "A"]) ["B"]).
  reflexivity.
Defined.

Lemma load_SAR_data_missing_field_witness :
  load_SAR_data sample_utm fs_malformed "d/" ["A"; "B"; "C"] w0
    = Some (Raise (KeyError "cfoc"), ["B"; "C"],
            read_both "d/" "C" (read_both "d/" "A" w0)).
Proof.
  apply (load_SAR_data_missing_field sample_utm fs_malformed "d/" "A" "B" "C" [] w0
           sample_quad sample_cov (sample_record "A")
           (delete "cfoc" sample_quad) sample_cov).
  - by split.
  - apply sample_describes.
  - by split.
  - apply lookup_delete_eq.
Defined.

Lemma load_ascii_gps_reader_error_witness :
  ∃ w', load_ascii_gps sample_tfs_missing "dir" "gps.txt" w0 = (Raise IOError, w') ∧
        (∀ blacklist, load_and_blacklist_GPS sample_tfs_missing "dir" "gps.txt" blacklist w0
                      = (Raise IOError, w')) ∧
        wlog w' = wlog w0.
Proof.
  apply (load_ascii_gps_reader_error sample_tfs_missing "dir" "gps.txt" w0 IOError).
  by left.
Defined.

Lemma load_and_blacklist_GPS_empty_table_witness :
  ∃ w', load_ascii_gps sample_tfs_empty "dir" "gps.txt" w0 = (Ok (mkGPSDataset ∅), w') ∧
        load_and_blacklist_GPS sample_tfs_empty "dir" "gps.txt" [] w0
          = (Raise IndexError, w').
Proof.
  apply (load_and_blacklist_GPS_empty_table sample_tfs_empty "dir" "gps.txt" [] w0);
    reflexivity.
Defined.


Lemma load_data_traces_length_bound_witness :
  (length sample_loaded ≤ length ["Z"; "T"] * length sample_stations)%nat.
Proof.
  apply (load_data_traces_length_bound sample_wfs "d/" sample_stations ["Z"; "T"] w0
           sample_loaded sample_wave_world).
  reflexivity.
Defined.

Lemma load_data_traces_fatal_witness :
  load_data_traces sample_wfs_empty "d/" sample_stations ["Z"; "T"] w0
    = (Raise IndexError,
       World [] ["d/reference-IU-ANMO-u.mseed"; "d/reference-IU-ANMO-u.mseed"]) ∧
  load_data_traces sample_wfs_broken "d/" sample_stations ["Z"; "T"] w0
    = (Raise (OtherError "FileLoadError"),
       World [] ["d/reference-IU-ANMO-u.mseed"; "d/reference-IU-ANMO-u.mseed"]).
Proof.
  split.
  - destruct (load_data_traces_fatal sample_wfs_empty "d/" (mkStation "IU" "ANMO")
                [mkStation "II" "KDAK"] ["Z"; "T"] "u" ["r"] w0) as [Hempty _];
      [reflexivity|reflexivity|].
    apply Hempty. reflexivity.
  - destruct (load_data_traces_fatal sample_wfs_broken "d/" (mkStation "IU" "ANMO")
                [mkStation "II" "KDAK"] ["Z"; "T"] "u" ["r"] w0) as [_ Hraise];
      [reflexivity|reflexivity|].
    apply Hraise; [reflexivity|done].
Defined.

Lemma load_data_traces_app_witness :
  ∃ t1 w1 t2 w2,
    load_data_traces sample_wfs "d/" sample_stations ["Z"] w0 = (Ok t1, w1) ∧
    load_data_traces sample_wfs "d/" sample_stations ["T"] w1 = (Ok t2, w2) ∧
    load_data_traces sample_wfs "d/" sample_stations (["Z"] ++ ["T"]) w0
      = (Ok (t1 ++ t2), w2).
Proof.
  apply (load_data_traces_app sample_wfs "d/" sample_stations ["Z"] ["T"] ["u"] ["r"] w0).
  - reflexivity.
  - reflexivity.
  - apply sample_wfs_tolerant.
Defined.

Lemma load_data_traces_none_opens_witness :
  load_data_traces sample_wfs_closed "d/" sample_stations ["Z"; "T"] w0
    = (Ok [],
       World [LogWarn "Unable to open file: reference-IU-ANMO-u";
              LogWarn "Unable to open file: reference-II-KDAK-u";
              LogWarn "Unable to open file: reference-IU-ANMO-r";
              LogWarn "Unable to open file: reference-II-KDAK-r"]
             ["d/reference-IU-ANMO-u.mseed"; "d/reference-II-KDAK-u.mseed";
              "d/reference-IU-ANMO-r.mseed"; "d/reference-II-KDAK-r.mseed"]).
Proof.
  apply (load_data_traces_none_opens sample_wfs_closed "d/" sample_stations
           ["Z"; "T"] ["u"; "r"] w0).
  - reflexivity.
  - repeat apply Forall_cons_2; [reflexivity..|apply Forall_nil_2].
Defined.

Lemma load_data_traces_all_load_witness :
  ∃ trcs w',
    load_data_traces sample_wfs_open "d/" sample_stations ["Z"; "T"] w0 = (Ok trcs, w') ∧
    length trcs = 4 ∧
    wlog w' = [].
Proof.
  apply (load_data_traces_all_load sample_wfs_open "d/" sample_stations
           ["Z"; "T"] ["u"; "r"] w0).
  - reflexivity.
  - repeat apply Forall_cons_2; [(split; [reflexivity|by eexists _, _])..|apply Forall_nil_2].
Defined.
